(** * CVXcanon: affine coefficient extraction and the linear cone transform

    A shallow embedding of
      - [src/cpp/cvxcanon/expression/LinearExpression.cpp]
      - [src/cpp/cvxcanon/transform/LinearConeTransform.cpp]
    together with the properties their specification states about them.

    Conventions of the embedding.
      - C++ [int] is [Z].  Where the code multiplies a size by the size of
        a matrix it was handed ([get_left_mul_coefficients],
        [get_right_mul_coefficients]) the [int] results are written with
        their wrap-around, [int_of]; elsewhere the values stay below the
        number of entries of an expression and are left as they are.  A loop
        [for (int i = 0; i < n; i++)] runs over [seqZ 0 n], which is empty
        when [n <= 0].
      - [double] values (matrix coefficients, the [p] of a norm) are exact
        integers ([Z]): every claim below is about where entries sit and how
        they compose, not about rounding.
      - A glog [CHECK], [CHECK_EQ] or [LOG(FATAL)] aborts the process; the
        embedding returns [Fatal] with the reason.  C++ undefined behaviour
        that the code can reach (indexing a vector out of range, reading an
        attribute record of the wrong kind) is a [Fatal] of its own.  *)

From Stdlib Require Import ZArith Lia String.
From stdpp Require Import gmap list sorting.

Local Open Scope Z_scope.

(** ** Outcomes of a run *)

Inductive Abort : Set :=
| MultiplyingTwoNonConstants  (* LOG(FATAL) << "multipying two non constants" *)
| NoLinearCoefficients        (* CHECK(iter != kCoefficientFunctions.end()) *)
| CheckEqFailed               (* CHECK_EQ(...) *)
| AssertionFailed             (* assert(...), Eigen's size assertions *)
| OutOfRange                  (* args()[i] or f_coeffs[i] past the end *)
| WrongAttributes             (* attr<T>() on a record that is not a T *)
| Unterminated.               (* a [while (true)] that never breaks *)

Inductive Result (A : Type) : Type :=
| Ok (a : A)
| Fatal (why : Abort).
Arguments Ok {A} a.
Arguments Fatal {A} why.

#[export] Instance Result_ret : MRet Result := @Ok.
#[export] Instance Result_bind : MBind Result :=
  fun A B (f : A -> Result B) (r : Result A) =>
    match r with
    | Ok a => f a
    | Fatal why => Fatal why
    end.

Definition is_fatal {A} (r : Result A) : bool :=
  match r with Ok _ => false | Fatal _ => true end.

(** Left fold with early exit, the shape of every accumulating loop below. *)
Fixpoint foldlM {A B} (f : B -> A -> Result B) (l : list A) (b : B) : Result B :=
  match l with
  | [] => Ok b
  | a :: l' => b' ← f b a; foldlM f l' b'
  end.

(** ** Matrices *)

(** [Size]: [dims[0]] rows, [dims[1]] columns. *)
Definition Size : Set := (Z * Z)%type.

(** Dense matrix as Eigen stores it by default: column-major data. *)
Record DenseMatrix : Set := mkDense {
  d_rows : Z;
  d_cols : Z;
  d_data : list Z
}.

Definition Triplet : Set := (Z * Z * Z)%type.

(** A sparse matrix is its shape and the triplets it was assembled from.
    It stands for the compressed matrix [setFromTriplets] builds: triplets
    at the same position add up, their order is immaterial.  [coeff] reads
    that matrix. *)
Record SparseMatrix : Set := mkSparse {
  m_rows : Z;
  m_cols : Z;
  m_entries : list Triplet
}.

Fixpoint sumZ (l : list Z) : Z :=
  match l with
  | [] => 0
  | x :: l' => x + sumZ l'
  end.

Definition coeff (M : SparseMatrix) (i j : Z) : Z :=
  sumZ (map (fun t : Triplet =>
               match t with
               | (r, c, v) => if (r =? i) && (c =? j) then v else 0
               end) (m_entries M)).

(** Dense vector read at an [int] index; outside the vector it reads 0. *)
Definition vec_at (x : list Z) (k : Z) : Z :=
  if k <? 0 then 0 else nth (Z.to_nat k) x 0.

(** [M * x] for a dense vector [x]. *)
Definition row_dot (M : SparseMatrix) (x : list Z) (a : Z) : Z :=
  sumZ (map (fun t : Triplet =>
               match t with
               | (r, c, v) => if r =? a then v * vec_at x c else 0
               end) (m_entries M)).

Definition mat_vec (M : SparseMatrix) (x : list Z) : list Z :=
  map (row_dot M x) (seqZ 0 (m_rows M)).

(** Eigen's sparse product [A * B]. *)
Definition mat_mul (A B : SparseMatrix) : SparseMatrix :=
  {| m_rows := m_rows A;
     m_cols := m_cols B;
     m_entries :=
       flat_map (fun ta : Triplet =>
         match ta with
         | (i, k, v) =>
             flat_map (fun tb : Triplet =>
               match tb with
               | (k', j, w) => if k =? k' then [(i, j, v * w)] else []
               end) (m_entries B)
         end) (m_entries A) |}.

(** Eigen's [A += B]; the shapes must agree (an Eigen assertion). *)
Definition mat_add_assign (A B : SparseMatrix) : Result SparseMatrix :=
  if (m_rows A =? m_rows B) && (m_cols A =? m_cols B)
  then Ok {| m_rows := m_rows A; m_cols := m_cols A;
             m_entries := m_entries A ++ m_entries B |}
  else Fatal AssertionFailed.

(** Modelled from the spec: the sparse constructors of [MatrixUtil] are not
    among the sources.  [sparse_matrix(rows, cols, triplets)],
    [identity(n)], [ones_matrix(r, c)] and [scalar_matrix(v, n)], which
    returns [v * I_n]. *)
Definition sparse_matrix (m n : Z) (coeffs : list Triplet) : SparseMatrix :=
  {| m_rows := m; m_cols := n; m_entries := coeffs |}.

(** The value an [int] holds after a computation whose exact result is
    [z], and after a conversion of [z] to [int]: the two's complement
    wrap-around of 32 bits.  (To C++ an overflowing signed product is
    undefined; the build wraps.) *)
Definition int_of (z : Z) : Z :=
  (z + 2147483648) mod 4294967296 - 2147483648.

Definition fits_int (z : Z) : bool :=
  (-2147483648 <=? z) && (z <=? 2147483647).

(** Whether the sizes are not negative and every triplet lies inside a
    matrix of [rows] by [cols]. *)
Definition in_bounds (rows cols : Z) (tripletList : list Triplet) : bool :=
  (0 <=? rows) && (0 <=? cols)
  && forallb (fun t : Triplet =>
                match t with
                | (r, c, _) => (0 <=? r) && (r <? rows) && (0 <=? c) && (c <? cols)
                end) tripletList.

(** [SparseMatrix coeffs(rows, cols); coeffs.setFromTriplets(...)]: Eigen
    asserts that the sizes are not negative and that no triplet falls outside
    the matrix. *)
Definition setFromTriplets (rows cols : Z) (tripletList : list Triplet)
    : Result SparseMatrix :=
  if in_bounds rows cols tripletList
  then Ok {| m_rows := rows; m_cols := cols; m_entries := tripletList |}
  else Fatal AssertionFailed.

Definition scalar_matrix (v n : Z) : SparseMatrix :=
  sparse_matrix n n (map (fun i => (i, i, v)) (seqZ 0 n)).

Definition identity (n : Z) : SparseMatrix := scalar_matrix 1 n.

Definition ones_matrix (m n : Z) : SparseMatrix :=
  sparse_matrix m n
    (flat_map (fun j => map (fun i => (i, j, 1)) (seqZ 0 m)) (seqZ 0 n)).

(** Modelled from the spec: [to_vector] is not among the sources.  It is the
    column-major flattening of a dense matrix, a vector of [rows * cols]
    entries. *)
Definition to_vector (D : DenseMatrix) : list Z :=
  map (vec_at (d_data D)) (seqZ 0 (d_rows D * d_cols D)).

(** Eigen's [sparseView()] of a dense column vector: one column, the zero
    entries dropped. *)
Definition sparseView (x : list Z) : SparseMatrix :=
  {| m_rows := Z.of_nat (length x);
     m_cols := 1;
     m_entries :=
       flat_map (fun k => if vec_at x k =? 0 then [] else [(k, 0, vec_at x k)])
                (seqZ 0 (Z.of_nat (length x))) |}.

(** ** Expressions *)

Inductive ExprType : Set :=
| CONST | VAR
| ADD | NEG | MUL | SUM_ENTRIES | HSTACK | VSTACK | RESHAPE | INDEX
| DIAG_MAT | DIAG_VEC | TRANSPOSE
| ABS | P_NORM | QUAD_OVER_LIN
| EQ | LEQ | SOC.

#[export] Instance ExprType_eq_dec : EqDecision ExprType.
Proof. solve_decision. Defined.

Record Slice : Set := mkSlice { start : Z; stop : Z; step : Z }.

(** Modelled from the spec: the attribute records are declared in
    [Expression.hpp], which is not among the sources.  [VAR] carries its
    identifier (and the shape it was declared with), [CONST] its dense data,
    [INDEX] its two slices, [P_NORM] its parameter [p], [RESHAPE] the target
    shape. *)
Inductive Attributes : Set :=
| NoAttributes
| ConstAttributes (dense_data : DenseMatrix)
| VarAttributes (id : Z) (size : Size)
| IndexAttributes (key0 key1 : Slice)
| PNormAttributes (p : Z)
| ReshapeAttributes (size : Size).

(** An expression: type tag, ordered children, attribute record. *)
#[local] Unset Elimination Schemes.
Inductive Expression : Set :=
| Expr (type : ExprType) (args : list Expression) (attr : Attributes).

#[local] Set Elimination Schemes.

Definition type (e : Expression) : ExprType :=
  match e with Expr t _ _ => t end.
Definition args (e : Expression) : list Expression :=
  match e with Expr _ a _ => a end.
Definition attr_ptr (e : Expression) : Attributes :=
  match e with Expr _ _ a => a end.

(** [expr.arg(i)]; past the end the C++ is undefined. *)
Definition arg (e : Expression) (i : nat) : Result Expression :=
  match nth_error (args e) i with
  | Some a => Ok a
  | None => Fatal OutOfRange
  end.


(** ** External collaborators *)

(** Modelled from the spec: the shape oracle [size(expr)] of
    [ExpressionShape] and the sentinel [kConstCoefficientId] are declared
    outside the sources.  They are parameters of everything below; the spec
    only asks that the sentinel differ from every real variable id. *)
Class Oracle : Set := {
  size : Expression -> Size;
  kConstCoefficientId : Z
}.

Abbreviation CoeffMap := (gmap Z SparseMatrix).

Section LinearExpression.
Context `{Oracle}.

(** Modelled from the spec: [dim(expr) = rows * cols]. *)
Definition dim (e : Expression) : Z := (size e).1 * (size e).2.

Definition is_constant (coeffs : CoeffMap) : bool :=
  bool_decide (is_Some (coeffs !! kConstCoefficientId))
  && bool_decide (base.size coeffs = 1%nat).

Definition get_add_coefficients (expr : Expression) : list SparseMatrix :=
  map (fun arg =>
         (* Handle promotion *)
         if dim arg =? 1 then ones_matrix (dim expr) 1 else identity (dim expr))
      (args expr).

(** [for k < block.outerSize(): for it(block, k)] visits the stored entries
    of [block]; here, its triplets.  [block_rows] and [block_cols], the
    products with [num_blocks] and [curr_block], and the indices a triplet
    is given are [int]s. *)
Definition get_left_mul_coefficients
    (expr : Expression) (block : SparseMatrix) : Result (list SparseMatrix) :=
  let block_rows := int_of (m_rows block) in
  let block_cols := int_of (m_cols block) in
  let num_blocks := (size expr).2 in
  let tripletList :=
    flat_map (fun curr_block =>
      let start_i := int_of (curr_block * block_rows) in
      let start_j := int_of (curr_block * block_cols) in
      map (fun it : Triplet =>
             match it with
             | (row, col, value) =>
                 (int_of (start_i + row), int_of (start_j + col), value)
             end) (m_entries block))
      (seqZ 0 num_blocks) in
  coeffs ← setFromTriplets (int_of (num_blocks * block_rows))
                           (int_of (num_blocks * block_cols)) tripletList;
  Ok [coeffs].

(** Here too [rows], [cols], the products with [n] and the indices a
    triplet is given are [int]s. *)
Definition get_right_mul_coefficients
    (expr : Expression) (constant : SparseMatrix) : Result (list SparseMatrix) :=
  let rows := int_of (m_rows constant) in
  let cols := int_of (m_cols constant) in
  let n := (size expr).1 in
  let tripletList :=
    flat_map (fun it : Triplet =>
      match it with
      | (row, col, val) =>
          (* each element of CONSTANT occupies an N x N block in the matrix *)
          let row_start := int_of (col * n) in
          let col_start := int_of (row * n) in
          map (fun i => (int_of (row_start + i), int_of (col_start + i), val))
              (seqZ 0 n)
      end) (m_entries constant) in
  coeffs ← setFromTriplets (int_of (cols * n)) (int_of (rows * n)) tripletList;
  Ok [coeffs].

Definition get_neg_coefficients (expr : Expression) : list SparseMatrix :=
  [scalar_matrix (-1) (dim expr)].

Definition get_sum_entries_coefficients (expr : Expression) : Result (list SparseMatrix) :=
  arg0 ← arg expr 0;
  Ok [ones_matrix 1 (dim arg0)].

(** The loop of [get_stack_coefficients]; [offset] is its running offset. *)
Fixpoint stack_loop (expr : Expression) (vertical : bool)
    (rest : list Expression) (offset : Z) : list SparseMatrix :=
  match rest with
  | [] => []
  | arg :: rest' =>
      let expr_size := size expr in
      let arg_size := size arg in
      (* If VERTICAL, columns that are interleaved. Otherwise, they are
         laid out in order. *)
      let column_offset := if vertical then expr_size.1 else arg_size.1 in
      let offset_increment := if vertical then arg_size.1 else dim arg in
      let arg_coeffs :=
        flat_map (fun i =>
          map (fun j =>
                 let row_idx := i + (j * column_offset) + offset in
                 let col_idx := i + (j * arg_size.1) in
                 (row_idx, col_idx, 1))
              (seqZ 0 arg_size.2))
          (seqZ 0 arg_size.1) in
      sparse_matrix (dim expr) (dim arg) arg_coeffs
        :: stack_loop expr vertical rest' (offset + offset_increment)
  end.

Definition get_stack_coefficients (expr : Expression) (vertical : bool)
    : list SparseMatrix :=
  stack_loop expr vertical (args expr) 0.

Definition get_hstack_coefficients (expr : Expression) : list SparseMatrix :=
  get_stack_coefficients expr false.

Definition get_vstack_coefficients (expr : Expression) : list SparseMatrix :=
  get_stack_coefficients expr true.

Definition get_reshape_coefficients (expr : Expression) : list SparseMatrix :=
  [identity (dim expr)].

(** One [while (true)] of [get_index_coefficients]: the positions it visits
    from [pos] on, over a dimension of [n].  Each visited position lies in
    [[0, n)]; with a nonzero step they are pairwise distinct, so [n] units of
    fuel suffice, and the fuel runs out only when the C++ loop never breaks
    (a zero step). *)
Fixpoint slice_walk (fuel : nat) (pos stop step n : Z) : Result (list Z) :=
  if (pos <? 0) || (n <=? pos) then Ok []
  else
    match fuel with
    | O => Fatal Unterminated
    | S fuel' =>
        let pos' := pos + step in
        if ((0 <? step) && (stop <=? pos')) || ((step <? 0) && (pos' <? stop))
        then Ok [pos]
        else rest ← slice_walk fuel' pos' stop step n; Ok (pos :: rest)
    end.

Definition get_index_coefficients (expr : Expression) : Result (list SparseMatrix) :=
  arg0 ← arg expr 0;
  let rows := (size arg0).1 in
  let cols := (size arg0).2 in
  let coeffs_rows := dim expr in
  let coeffs_cols := rows * cols in
  (* If slice is empty, return empty matrix *)
  if (coeffs_rows =? 0) || (coeffs_cols =? 0)
  then Ok [sparse_matrix coeffs_rows coeffs_cols []]
  else
    match attr_ptr expr with
    | IndexAttributes rs cs =>
        (* Row Slice Data *)
        let row_start := if start rs <? 0 then rows + start rs else start rs in
        let row_stop := if stop rs <? 0 then rows + stop rs else stop rs in
        let row_step := step rs in
        (* Column Slice Data *)
        let col_start := if start cs <? 0 then cols + start cs else start cs in
        let col_stop := if stop cs <? 0 then cols + stop cs else stop cs in
        let col_step := step cs in
        (* the inner loop restarts at [row_start] for every column, so it
           visits the same rows each time *)
        col_walk ← slice_walk (Z.to_nat cols) col_start col_stop col_step cols;
        row_walk ← match col_walk with
                   | [] => Ok []
                   | _ :: _ => slice_walk (Z.to_nat rows) row_start row_stop row_step rows
                   end;
        let tripletList :=
          imap (fun counter col_idx => (Z.of_nat counter, col_idx, 1))
               (flat_map (fun col => map (fun row => col * rows + row) row_walk)
                         col_walk) in
        coeffs ← setFromTriplets coeffs_rows coeffs_cols tripletList;
        Ok [coeffs]
    | _ => Fatal WrongAttributes
    end.

(** The three operators below are assembled with [setFromTriplets] as well;
    their triplets lie inside the matrix whenever the sizes are not negative
    (lemma [diag_and_transpose_in_bounds]), and they are written with the
    matrix itself. *)
Definition get_diag_mat_coefficients (expr : Expression) : list SparseMatrix :=
  let rows := (size expr).1 in
  [sparse_matrix rows (rows * rows)
     (map (fun i => (i, i * rows + i, 1)) (seqZ 0 rows))].

Definition get_diag_vec_coefficients (expr : Expression) : list SparseMatrix :=
  let rows := (size expr).1 in
  [sparse_matrix (rows * rows) rows
     (map (fun i => (i * rows + i, i, 1)) (seqZ 0 rows))].

Definition get_transpose_coefficients (expr : Expression) : list SparseMatrix :=
  let rows := (size expr).1 in
  let cols := (size expr).2 in
  [sparse_matrix (rows * cols) (rows * cols)
     (flat_map (fun i =>
        map (fun j => (rows * j + i, i * cols + j, 1)) (seqZ 0 cols))
        (seqZ 0 rows))].

Definition CoefficientFunction : Type := Expression -> Result (list SparseMatrix).

Definition kCoefficientFunctions (t : ExprType) : option CoefficientFunction :=
  match t with
  | ADD => Some (fun e => Ok (get_add_coefficients e))
  | DIAG_MAT => Some (fun e => Ok (get_diag_mat_coefficients e))
  | DIAG_VEC => Some (fun e => Ok (get_diag_vec_coefficients e))
  | HSTACK => Some (fun e => Ok (get_hstack_coefficients e))
  | INDEX => Some get_index_coefficients
  | NEG => Some (fun e => Ok (get_neg_coefficients e))
  | RESHAPE => Some (fun e => Ok (get_reshape_coefficients e))
  | SUM_ENTRIES => Some get_sum_entries_coefficients
  | TRANSPOSE => Some (fun e => Ok (get_transpose_coefficients e))
  | VSTACK => Some (fun e => Ok (get_vstack_coefficients e))
  | _ => None
  end.

(** A [std::map<int, SparseMatrix>] is walked in ascending key order. *)
Definition key_le (a b : Z * SparseMatrix) : Prop := a.1 <= b.1.

#[export] Instance key_le_dec a b : Decision (key_le a b) :=
  decide (a.1 <= b.1).

Definition items (m : CoeffMap) : list (Z * SparseMatrix) :=
  merge_sort key_le (map_to_list m).

(** The body of the loop of [multiply_by_constant], for one entry [iter]. *)
Definition accumulate (lhs : SparseMatrix) (result : CoeffMap)
    (iter : Z * SparseMatrix) : Result CoeffMap :=
  if m_cols lhs =? m_rows iter.2
  then
    let value := mat_mul lhs iter.2 in
    match result !! iter.1 with
    | None => Ok (<[iter.1 := value]> result)
    | Some old =>
        sum ← mat_add_assign old value;
        Ok (<[iter.1 := sum]> result)
    end
  else Fatal CheckEqFailed.

(** [result += lhs * rhs] *)
Definition multiply_by_constant
    (lhs : SparseMatrix) (rhs : CoeffMap) (result : CoeffMap) : Result CoeffMap :=
  foldlM (accumulate lhs) (items rhs) result.

(** [m[key]] on a [std::map]: a default-constructed matrix when absent. *)
Definition at_key (m : CoeffMap) (key : Z) : SparseMatrix :=
  default (sparse_matrix 0 0 []) (m !! key).

(** [f_coeffs[i]] *)
Definition f_at (f_coeffs : list SparseMatrix) (i : nat) : Result SparseMatrix :=
  match nth_error f_coeffs i with
  | Some F => Ok F
  | None => Fatal OutOfRange
  end.

Fixpoint get_coefficients (expr : Expression) : Result CoeffMap :=
  match expr with
  | Expr CONST _ attr =>
      match attr with
      | ConstAttributes dense_data =>
          Ok {[ kConstCoefficientId := sparseView (to_vector dense_data) ]}
      | _ => Fatal WrongAttributes
      end
  | Expr VAR _ attr =>
      match attr with
      | VarAttributes id _ => Ok {[ id := identity (dim expr) ]}
      | _ => Fatal WrongAttributes
      end
  | Expr MUL args _ =>
      (* Special case for binary mul operator which is guaranteed to have one
         constant argument by DCP rules. *)
      match args with
      | [arg0; arg1] =>
          lhs_coeffs ← get_coefficients arg0;
          rhs_coeffs ← get_coefficients arg1;
          if is_constant lhs_coeffs then
            f_coeffs ←
              get_left_mul_coefficients expr (at_key lhs_coeffs kConstCoefficientId);
            F ← f_at f_coeffs 0;
            multiply_by_constant F rhs_coeffs ∅
          else if is_constant rhs_coeffs then
            f_coeffs ←
              get_right_mul_coefficients expr (at_key rhs_coeffs kConstCoefficientId);
            F ← f_at f_coeffs 0;
            multiply_by_constant F lhs_coeffs ∅
          else Fatal MultiplyingTwoNonConstants
      | _ => Fatal AssertionFailed
      end
  | Expr t args _ =>
      match kCoefficientFunctions t with
      | None => Fatal NoLinearCoefficients
      | Some coefficient_function =>
          f_coeffs ← coefficient_function expr;
          (fix loop (rest : list Expression) (i : nat) (coeffs : CoeffMap)
             : Result CoeffMap :=
             match rest with
             | [] => Ok coeffs
             | arg_i :: rest' =>
                 arg_coeffs ← get_coefficients arg_i;
                 F ← f_at f_coeffs i;
                 coeffs' ← multiply_by_constant F arg_coeffs coeffs;
                 loop rest' (S i) coeffs'
             end) args 0%nat ∅
      end
  end.

(** The loop over the children in the last branch of [get_coefficients], by
    itself. *)
Definition accumulate_args (f_coeffs : list SparseMatrix)
    : list Expression -> nat -> CoeffMap -> Result CoeffMap :=
  fix loop (rest : list Expression) (i : nat) (coeffs : CoeffMap)
    : Result CoeffMap :=
    match rest with
    | [] => Ok coeffs
    | arg_i :: rest' =>
        arg_coeffs ← get_coefficients arg_i;
        F ← f_at f_coeffs i;
        coeffs' ← multiply_by_constant F arg_coeffs coeffs;
        loop rest' (S i) coeffs'
    end.

End LinearExpression.

(** ** The linear cone transform *)

(** Modelled from the spec: the expression constructors of [ExpressionUtil]
    are not among the sources.  Each builds the node its name says, with the
    given children in order. *)
Definition var (m n id : Z) : Expression := Expr VAR [] (VarAttributes id (m, n)).
Definition constant (value : Z) : Expression :=
  Expr CONST [] (ConstAttributes (mkDense 1 1 [value])).
Definition add (x y : Expression) : Expression := Expr ADD [x; y] NoAttributes.
Definition neg (x : Expression) : Expression := Expr NEG [x] NoAttributes.
Definition mul (x y : Expression) : Expression := Expr MUL [x; y] NoAttributes.
Definition vstack (l : list Expression) : Expression := Expr VSTACK l NoAttributes.
Definition sum_entries (x : Expression) : Expression :=
  Expr SUM_ENTRIES [x] NoAttributes.
Definition leq (x y : Expression) : Expression := Expr LEQ [x; y] NoAttributes.
Definition soc (x t : Expression) : Expression := Expr SOC [x; t] NoAttributes.

(** What a traversal threads along: the identifier the minter hands out
    next, and the vector behind the [constraints] pointer. *)
Record TransformState : Set := mkState {
  next_var_id : Z;
  emitted : list Expression
}.

Definition Transform (A : Type) : Type :=
  TransformState -> Result (A * TransformState).

#[export] Instance Transform_ret : MRet Transform :=
  fun A (a : A) st => Ok (a, st).
#[export] Instance Transform_bind : MBind Transform :=
  fun A B (f : A -> Transform B) (m : Transform A) st =>
    match m st with
    | Ok (a, st') => f a st'
    | Fatal why => Fatal why
    end.

Definition abort {A} (why : Abort) : Transform A := fun _ => Fatal why.

(** [constraints->push_back(c)] *)
Definition push_back (c : Expression) : Transform unit :=
  fun st => Ok (tt, {| next_var_id := next_var_id st;
                       emitted := emitted st ++ [c] |}).

(** [expr.arg(i)] inside a traversal. *)
Definition arg_of (e : Expression) (i : nat) : Transform Expression :=
  fun st => match arg e i with
            | Ok a => Ok (a, st)
            | Fatal why => Fatal why
            end.

Inductive Sense : Set := MINIMIZE | MAXIMIZE.

(** Modelled from the spec: [Problem] is declared outside the sources; it
    binds an objective and a list of constraints, with the sense the
    transform copies over. *)
Record Problem : Set := mkProblem {
  sense : Sense;
  objective : Expression;
  constraints : list Expression
}.

Section LinearConeTransform.
Context `{Oracle}.

(** Modelled from the spec: the minter of [ExpressionUtil] is not among the
    sources.  [epi_var(parent, label)] returns a fresh variable of the shape
    of [parent], [scalar_epi_var(parent, label)] a fresh scalar variable;
    identifiers are handed out once each: here, counting upward. *)
Definition epi_var (parent : Expression) (label : string) : Transform Expression :=
  fun st => Ok (var (size parent).1 (size parent).2 (next_var_id st),
                {| next_var_id := next_var_id st + 1; emitted := emitted st |}).

Definition scalar_epi_var (parent : Expression) (label : string)
    : Transform Expression :=
  fun st => Ok (var 1 1 (next_var_id st),
                {| next_var_id := next_var_id st + 1; emitted := emitted st |}).

Definition TransformFunction : Type := Expression -> Transform Expression.

Definition transform_abs : TransformFunction := fun expr =>
  x ← arg_of expr 0;
  t ← epi_var expr "abs";
  push_back (leq x t);;
  push_back (leq (neg x) t);;
  mret t.

Definition transform_p_norm : TransformFunction := fun expr =>
  match attr_ptr expr with
  | PNormAttributes p =>
      if p =? 1
      then t ← transform_abs expr; mret (sum_entries t)
      else abort CheckEqFailed
  | _ => abort WrongAttributes
  end.

Definition transform_quad_over_lin : TransformFunction := fun expr =>
  x ← arg_of expr 0;
  y ← arg_of expr 1;
  t ← scalar_epi_var expr "qol";
  push_back (soc (vstack [add y (neg t); mul (constant 2) x]) (add y t));;
  push_back (leq (constant 0) y);;
  mret t.

Definition kTransforms (t : ExprType) : option TransformFunction :=
  match t with
  | ABS => Some transform_abs
  | P_NORM => Some transform_p_norm
  | QUAD_OVER_LIN => Some transform_quad_over_lin
  | _ => None
  end.

Fixpoint transform_expression (expr : Expression) : Transform Expression :=
  match expr with
  | Expr type args attr =>
      (* First transform children *)
      linear_args ←
        (fix children (rest : list Expression) : Transform (list Expression) :=
           match rest with
           | [] => mret []
           | arg :: rest' =>
               arg' ← transform_expression arg;
               tail ← children rest';
               mret (arg' :: tail)
           end) args;
      (* New expression, with linear args *)
      let output := Expr type linear_args attr in
      (* Now transform non-linear functions, if necessary *)
      match kTransforms type with
      | Some transform_function => transform_function output
      | None => mret output
      end
  end.

(** The first loop of [transform_expression], by itself. *)
Fixpoint transform_args (rest : list Expression) : Transform (list Expression) :=
  match rest with
  | [] => mret []
  | arg :: rest' =>
      arg' ← transform_expression arg;
      tail ← transform_args rest';
      mret (arg' :: tail)
  end.

(** The loop of [LinearConeTransform::transform]: the call's argument is
    evaluated, appending to the vector, before [push_back] appends its
    result. *)
Fixpoint transform_constraints (rest : list Expression) : Transform unit :=
  match rest with
  | [] => mret tt
  | constr :: rest' =>
      linear_constr ← transform_expression constr;
      push_back linear_constr;;
      transform_constraints rest'
  end.

(** [LinearConeTransform::transform]; [first_id] is the state of the minter
    when it is called, returned updated next to the problem. *)
Definition transform (problem : Problem) (first_id : Z) : Result (Problem * Z) :=
  let run : Transform Expression :=
    linear_objective ← transform_expression (objective problem);
    transform_constraints (constraints problem);;
    mret linear_objective in
  match run {| next_var_id := first_id; emitted := [] |} with
  | Ok (linear_objective, st) =>
      Ok ({| sense := sense problem;
             objective := linear_objective;
             constraints := emitted st |}, next_var_id st)
  | Fatal why => Fatal why
  end.

End LinearConeTransform.

(** ** A shape oracle to run the code on *)

(** Number of positions [start, start + step, ...] a slice selects in a
    dimension of [n], negative bounds counted from the end. *)
Definition slice_length (s : Slice) (n : Z) : Z :=
  let from := if start s <? 0 then n + start s else start s in
  let to := if stop s <? 0 then n + stop s else stop s in
  if 0 <? step s then
    let from := Z.max 0 (Z.min n from) in
    let to := Z.max 0 (Z.min n to) in
    Z.max 0 ((to - from + step s - 1) / step s)
  else if step s <? 0 then
    let from := Z.max (-1) (Z.min (n - 1) from) in
    let to := Z.max (-1) (Z.min (n - 1) to) in
    Z.max 0 ((from - to - step s - 1) / (- step s))
  else 0.

(** Modelled from the spec: [ExpressionShape] is not among the sources.  The
    shapes the spec gives: data and declared shapes for [CONST] and [VAR];
    [(r, c) * (c, n) -> (r, n)] for [MUL]; [(1, 1)] for [SUM_ENTRIES] (and
    for the scalar-valued [P_NORM] and [QUAD_OVER_LIN]); the common row
    (column) count and the summed columns (rows) for [HSTACK] ([VSTACK]);
    [(n, 1)] for [DIAG_MAT], [(n, n)] for [DIAG_VEC]; [(c, r)] for
    [TRANSPOSE]; the shape of the first non-scalar argument for [ADD]; the
    argument's shape for [NEG] and [ABS]; the slice lengths for [INDEX].
    Constraint nodes have no shape of their own. *)
Fixpoint size_spec (e : Expression) : Size :=
  match e with
  | Expr t args attr =>
      let sizes := map size_spec args in
      let s0 := nth 0 sizes (0, 0) in
      let s1 := nth 1 sizes (0, 0) in
      match t, attr with
      | CONST, ConstAttributes d => (d_rows d, d_cols d)
      | VAR, VarAttributes _ sz => sz
      | RESHAPE, ReshapeAttributes sz => sz
      | INDEX, IndexAttributes rs cs => (slice_length rs s0.1, slice_length cs s0.2)
      | ADD, _ =>
          default (1, 1) (find (fun sz : Size => negb (sz.1 * sz.2 =? 1)) sizes)
      | (NEG | ABS), _ => s0
      | MUL, _ => (s0.1, s1.2)
      | (SUM_ENTRIES | P_NORM | QUAD_OVER_LIN), _ => (1, 1)
      | HSTACK, _ => (s0.1, sumZ (map snd sizes))
      | VSTACK, _ => (sumZ (map fst sizes), s0.2)
      | DIAG_MAT, _ => (s0.1, 1)
      | DIAG_VEC, _ => (s0.1, s0.1)
      | TRANSPOSE, _ => (s0.2, s0.1)
      | _, _ => (0, 0)
      end
  end.

(** The oracle of the examples: [size_spec], and [-1] for the sentinel. *)
Definition spec_oracle : Oracle :=
  {| size := size_spec; kConstCoefficientId := -1 |}.

(** ** Notions the properties are stated with *)

(** No [ABS], [P_NORM] or [QUAD_OVER_LIN] node anywhere in the tree. *)
Fixpoint no_registered_atom (e : Expression) : bool :=
  match e with
  | Expr (ABS | P_NORM | QUAD_OVER_LIN) _ _ => false
  | Expr _ args _ => forallb no_registered_atom args
  end.

(** A run whose accumulator started as [acc ++ _] instead of [_]. *)
Definition with_prefix {A} (acc : list Expression)
    (r : Result (A * TransformState)) : Result (A * TransformState) :=
  match r with
  | Ok (a, st) => Ok (a, {| next_var_id := next_var_id st;
                            emitted := acc ++ emitted st |})
  | Fatal why => Fatal why
  end.

(** A traversal that only ever appends to the accumulator it is given, and
    whose result and appended constraints do not depend on what the
    accumulator held. *)
Definition appends_only {A} (m : Transform A) : Prop :=
  forall n acc,
    m {| next_var_id := n; emitted := acc |}
    = with_prefix acc (m {| next_var_id := n; emitted := [] |}).

(** Every matrix of a [CoeffMap] has [d] rows. *)
Definition rows_are (d : Z) (coeffs : CoeffMap) : Prop :=
  map_Forall (fun _ M => m_rows M = d) coeffs.

(** A traversal after which the minter is where it was or further. *)
Definition counts_upward {A} (m : Transform A) : Prop :=
  forall st a st', m st = Ok (a, st') -> next_var_id st <= next_var_id st'.

Section OutputOrder.
Context `{Oracle}.

(** The constraint list as the order of emission dictates it: for each
    original constraint in turn, what transforming it emits (run on an empty
    accumulator), then the transformed constraint itself. *)
Fixpoint constraints_in_order (rest : list Expression) (n : Z)
    : Result (list Expression * Z) :=
  match rest with
  | [] => Ok ([], n)
  | constr :: rest' =>
      match transform_expression constr {| next_var_id := n; emitted := [] |} with
      | Ok (linear_constr, st) =>
          match constraints_in_order rest' (next_var_id st) with
          | Ok (out, n') => Ok (emitted st ++ linear_constr :: out, n')
          | Fatal why => Fatal why
          end
      | Fatal why => Fatal why
      end
  end.

(** The whole output in that order: first what the objective emits. *)
Definition transform_in_order (problem : Problem) (first_id : Z)
    : Result (Problem * Z) :=
  match transform_expression (objective problem)
          {| next_var_id := first_id; emitted := [] |} with
  | Ok (linear_objective, st) =>
      match constraints_in_order (constraints problem) (next_var_id st) with
      | Ok (out, n') =>
          Ok ({| sense := sense problem;
                 objective := linear_objective;
                 constraints := emitted st ++ out |}, n')
      | Fatal why => Fatal why
      end
  | Fatal why => Fatal why
  end.

End OutputOrder.

(** Entry [(i, j)] of a dense matrix, read in its column-major data. *)
Definition dense_at (M : DenseMatrix) (i j : Z) : Z :=
  vec_at (d_data M) (j * d_rows M + i).

(** The entries of a transposition operator: a one at row [rows j + i],
    column [i cols + j], for every [(i, j)] in [[0, rows) x [0, cols)], and
    nothing elsewhere.  The spec reads [(rows, cols)] as the shape [(r, c)]
    of the argument of the [TRANSPOSE]. *)
Definition transpose_entries (rows cols : Z) (T : SparseMatrix) : Prop :=
  (forall i j, 0 <= i < rows -> 0 <= j < cols ->
     coeff T (rows * j + i) (i * cols + j) = 1)
  /\
  (forall a b, coeff T a b <> 0 ->
     exists i j, 0 <= i < rows /\ 0 <= j < cols
                 /\ a = rows * j + i /\ b = i * cols + j).

(** Every entry of a [CoeffMap] multiplied on the left by [F], the run
    aborting on the first mismatch of [F]'s columns with an entry's rows. *)
Definition scale_all (F : SparseMatrix) (coeffs : CoeffMap) : Result CoeffMap :=
  if decide (map_Forall (fun _ M => m_cols F = m_rows M) coeffs)
  then Ok (mat_mul F <$> coeffs)
  else Fatal CheckEqFailed.

Section MulClaim.
Context `{Oracle}.

(** What the rows invariant needs of the oracle at a node, the shapes the
    spec gives: a [CONST] has the shape of its data, a [SUM_ENTRIES] is
    [(1, 1)], a [DIAG_MAT] a column, a [DIAG_VEC] square. *)
Definition shape_fits (expr : Expression) : Prop :=
  match expr with
  | Expr CONST _ (ConstAttributes d) =>
      size expr = (d_rows d, d_cols d) /\ 0 <= d_rows d * d_cols d
  | Expr SUM_ENTRIES _ _ => size expr = (1, 1)
  | Expr DIAG_MAT _ _ => (size expr).2 = 1
  | Expr DIAG_VEC _ _ => (size expr).1 = (size expr).2
  | _ => True
  end.

(** A binary [MUL] fails exactly when neither child is constant, as the
    spec words it. *)
Definition mul_fails_iff_no_constant (arg0 arg1 : Expression) : Prop :=
  forall lhs_coeffs rhs_coeffs,
    get_coefficients arg0 = Ok lhs_coeffs ->
    get_coefficients arg1 = Ok rhs_coeffs ->
    (is_fatal (get_coefficients (mul arg0 arg1)) = true
     <-> is_constant lhs_coeffs = false /\ is_constant rhs_coeffs = false).

End MulClaim.

(** ** Inputs of the examples *)

Definition const_of (D : DenseMatrix) : Expression :=
  Expr CONST [] (ConstAttributes D).

(** [[1, 2], [3, 4]], stored by columns. *)
Definition dense_1234 : DenseMatrix := mkDense 2 2 [1; 3; 2; 4].

(** [[1], [2]] *)
Definition dense_col_12 : DenseMatrix := mkDense 2 1 [1; 2].

(** [[1, 3, 5], [2, 4, 6]] *)
Definition dense_2x3 : DenseMatrix := mkDense 2 3 [1; 2; 3; 4; 5; 6].

(** S3: [MUL(CONST([[1,2],[3,4]]), VAR(id=0, (2,1)))] *)
Definition matrix_times_vector : Expression :=
  mul (const_of dense_1234) (var 2 1 0).

(** [MUL(VAR(id=0, (1,2)), CONST([[1,2],[3,4]]))] *)
Definition vector_times_matrix : Expression :=
  mul (var 1 2 0) (const_of dense_1234).

(** S5: [TRANSPOSE(VAR(id=0, (2,3)))] *)
Definition transpose_2x3 : Expression :=
  Expr TRANSPOSE [var 2 3 0] NoAttributes.

(** [x[0:1, 0:0] * B[0:0, 0:2]]: a [(1, 0)] slice of a [(1, 3)] variable
    times a [(0, 2)] slice of a constant, of shape [(1, 2)]. *)
Definition empty_slice_product : Expression :=
  mul (Expr INDEX [var 1 3 0]
         (IndexAttributes (mkSlice 0 1 1) (mkSlice 0 0 1)))
      (Expr INDEX [const_of dense_1234]
         (IndexAttributes (mkSlice 0 0 1) (mkSlice 0 2 1))).

(** [2 x - y] for [(3, 1)] variables [x] and [y]. *)
Definition affine_tree : Expression :=
  add (mul (constant 2) (var 3 1 0)) (neg (var 3 1 1)).

(** [[1], [2]] as a sparse matrix. *)
Definition sparse_col_12 : SparseMatrix := sparse_matrix 2 1 [(0, 0, 1); (1, 0, 2)].

(** [x + [[3], [4]]] for a [(2, 1)] variable [x]. *)
Definition sum_with_constant : Expression :=
  add (var 2 1 0) (const_of (mkDense 2 1 [3; 4])).

(** [[[1], [2]] * x] for a scalar variable [x]. *)
Definition column_times_scalar : Expression :=
  mul (const_of dense_col_12) (var 1 1 0).

(** [x * [[1], [2]]] for a [(3, 2)] variable [x]. *)
Definition matrix_times_column : Expression :=
  mul (var 3 2 0) (const_of dense_col_12).

(** [TRANSPOSE(TRANSPOSE(x))] for the [(2, 3)] variable of S5. *)
Definition transpose_twice : Expression :=
  Expr TRANSPOSE [transpose_2x3] NoAttributes.

Definition diag_vec_2 : Expression := Expr DIAG_VEC [var 2 1 0] NoAttributes.
Definition diag_mat_2 : Expression := Expr DIAG_MAT [var 2 2 0] NoAttributes.

(** A [(1, 2)] variable on top of a [(2, 2)] variable. *)
Definition vstack_1_2 : Expression := vstack [var 1 2 0; var 2 2 1].

(** [x[0:2, 1:3]] for a [(3, 3)] variable [x]. *)
Definition index_block : Expression :=
  Expr INDEX [var 3 3 0] (IndexAttributes (mkSlice 0 2 1) (mkSlice 1 3 1)).

(** The same slice with a column step of zero, and an oracle that gives
    every expression the shape [(3, 3)]. *)
Definition index_zero_step : Expression :=
  Expr INDEX [var 3 3 0] (IndexAttributes (mkSlice 0 2 1) (mkSlice 1 3 0)).

Definition square_oracle : Oracle :=
  {| size := fun _ => (3, 3); kConstCoefficientId := -1 |}.

(** [|x| + y] for [(2, 1)] variables [x] and [y]. *)
Definition abs_plus_var : Expression :=
  add (Expr ABS [var 2 1 0] NoAttributes) (var 2 1 1).

(** Minimise [|x| + y] subject to [||x||_1 <= 5]. *)
Definition small_problem : Problem :=
  {| sense := MINIMIZE;
     objective := abs_plus_var;
     constraints :=
       [leq (Expr P_NORM [var 2 1 0] (PNormAttributes 1)) (constant 5)] |}.

(** ** Notions of the further properties *)

(** The identifiers of the [VAR] nodes [get_coefficients] reads: it does not
    look below a [CONST] or a [VAR]. *)
Fixpoint var_ids (e : Expression) : gset Z :=
  match e with
  | Expr VAR _ (VarAttributes id _) => {[ id ]}
  | Expr (CONST | VAR) _ _ => ∅
  | Expr _ args _ => ⋃ (map var_ids args)
  end.

(** Some node the traversal of [get_coefficients] reaches has a type that is
    neither [CONST], [VAR], [MUL] nor in [kCoefficientFunctions]. *)
Fixpoint reaches_unsupported (e : Expression) : bool :=
  match e with
  | Expr (CONST | VAR) _ _ => false
  | Expr (ABS | P_NORM | QUAD_OVER_LIN | EQ | LEQ | SOC) _ _ => true
  | Expr _ args _ => existsb reaches_unsupported args
  end.

(** Number of [ABS], [P_NORM] and [QUAD_OVER_LIN] nodes of a tree. *)
Fixpoint count_atoms (e : Expression) : nat :=
  match e with
  | Expr t args _ =>
      (match t with ABS | P_NORM | QUAD_OVER_LIN => 1 | _ => 0 end
       + list_sum (map count_atoms args))%nat
  end.

(** Every registered node has the children its rewrite reads ([arg(0)], and
    [arg(1)] for [QUAD_OVER_LIN]) and every [P_NORM] its [PNormAttributes]. *)
Fixpoint atoms_readable (e : Expression) : bool :=
  match e with
  | Expr t args attr =>
      match t with
      | ABS => (1 <=? length args)%nat
      | P_NORM =>
          (1 <=? length args)%nat
          && match attr with PNormAttributes _ => true | _ => false end
      | QUAD_OVER_LIN => (2 <=? length args)%nat
      | _ => true
      end
      && forallb atoms_readable args
  end.

(** Every [P_NORM] node of the tree has [p = 1]. *)
Fixpoint norms_are_one (e : Expression) : bool :=
  match e with
  | Expr t args attr =>
      match t, attr with
      | P_NORM, PNormAttributes p => p =? 1
      | _, _ => true
      end
      && forallb norms_are_one args
  end.

(** A traversal that mints [v] variables and appends [c] constraints. *)
Definition mints_and_emits {A} (v c : nat) (m : Transform A) : Prop :=
  forall st a st',
    m st = Ok (a, st') ->
    next_var_id st' = next_var_id st + Z.of_nat v
    /\ length (emitted st') = (length (emitted st) + c)%nat.

(** A traversal that keeps the accumulator free of registered atoms and
    returns a value satisfying [P]. *)
Definition stays_affine {A} (P : A -> Prop) (m : Transform A) : Prop :=
  forall st a st',
    Forall (fun c => no_registered_atom c = true) (emitted st) ->
    m st = Ok (a, st') ->
    P a /\ Forall (fun c => no_registered_atom c = true) (emitted st').

(** * Properties *)

(** ** Induction over expression trees *)

Lemma Expression_ind' (P : Expression -> Prop) :
  (forall t args attr, Forall P args -> P (Expr t args attr)) ->
  forall e, P e.
Proof.
  intros Hnode.
  fix IH 1.
  intros [t args attr].
  apply Hnode.
  induction args as [|e args IHargs]; constructor.
  - apply IH.
  - exact IHargs.
Qed.

(** ** Sums over triplet lists *)

Lemma sumZ_app l1 l2 : sumZ (l1 ++ l2) = sumZ l1 + sumZ l2.
Proof. induction l1 as [|x l1 IH]; simpl; lia. Qed.

Lemma sumZ_flat_map {A B} (g : B -> Z) (F : A -> list B) (l : list A) :
  sumZ (map g (flat_map F l)) = sumZ (map (fun a => sumZ (map g (F a))) l).
Proof.
  induction l as [|a l IH]; simpl; [reflexivity|].
  now rewrite map_app, sumZ_app, IH.
Qed.

Lemma sumZ_map_zero {A} (f : A -> Z) (l : list A) :
  (forall a, a ∈ l -> f a = 0) -> sumZ (map f l) = 0.
Proof.
  induction l as [|a l IH]; intros Hz; simpl; [reflexivity|].
  rewrite Hz by left. rewrite IH; [reflexivity|].
  intros b Hb. apply Hz. now right.
Qed.

Lemma sumZ_map_single {A} (f : A -> Z) (l : list A) (k : A) :
  NoDup l -> k ∈ l -> (forall a, a ∈ l -> a <> k -> f a = 0) ->
  sumZ (map f l) = f k.
Proof.
  induction 1 as [|a l Hnotin Hnd IH]; intros Hk Hz.
  - inversion Hk.
  - simpl. apply elem_of_cons in Hk as [->|Hk].
    + rewrite sumZ_map_zero; [lia|].
      intros b Hb. apply Hz; [now right|]. intros ->. contradiction.
    + rewrite (Hz a); [|left|intros ->; contradiction].
      rewrite IH; [lia|exact Hk|]. intros b Hb. apply Hz. now right.
Qed.

Lemma sumZ_map_ext {A} (f g : A -> Z) (l : list A) :
  (forall a, a ∈ l -> f a = g a) -> sumZ (map f l) = sumZ (map g l).
Proof.
  induction l as [|a l IH]; intros Hfg; simpl; [reflexivity|].
  rewrite Hfg by left. rewrite IH; [reflexivity|].
  intros b Hb. apply Hfg. now right.
Qed.

Lemma sumZ_map_nonzero {A} (f : A -> Z) (l : list A) :
  sumZ (map f l) <> 0 -> exists a, a ∈ l /\ f a <> 0.
Proof.
  induction l as [|a l IH]; simpl; [congruence|].
  intros Hsum.
  destruct (decide (f a = 0)) as [Hz|Hnz].
  - destruct IH as (b & Hb & Hfb); [lia|].
    exists b. split; [now right|exact Hfb].
  - exists a. split; [left|exact Hnz].
Qed.

Lemma vec_at_map_seqZ (f : Z -> Z) n k :
  0 <= k < n -> vec_at (map f (seqZ 0 n)) k = f k.
Proof.
  intros Hk. unfold vec_at.
  destruct (Z.ltb_spec k 0); [lia|].
  change (map f (seqZ 0 n)) with (f <$> seqZ 0 n).
  rewrite nth_lookup, list_lookup_fmap, lookup_seqZ_lt by lia.
  simpl. f_equal. lia.
Qed.

(** ** Accumulating into a [CoeffMap] *)

Lemma items_Permutation (m : CoeffMap) : items m ≡ₚ map_to_list m.
Proof. apply merge_sort_Permutation. Qed.

Lemma items_ascending (m : CoeffMap) : Sorted key_le (items m).
Proof.
  apply Sorted_merge_sort.
  intros a b. unfold key_le. lia.
Qed.

Lemma NoDup_items_keys (m : CoeffMap) : NoDup (items m).*1.
Proof. rewrite items_Permutation. apply NoDup_fst_map_to_list. Qed.

Lemma accumulate_new_key lhs (result : CoeffMap) k M :
  m_cols lhs = m_rows M -> result !! k = None ->
  accumulate lhs result (k, M) = Ok (<[k := mat_mul lhs M]> result).
Proof.
  intros Heq Hk. unfold accumulate. cbn [fst snd].
  rewrite Hk. now rewrite (proj2 (Z.eqb_eq _ _) Heq).
Qed.

Lemma accumulate_mismatch lhs (result : CoeffMap) k M :
  m_cols lhs <> m_rows M ->
  accumulate lhs result (k, M) = Fatal CheckEqFailed.
Proof.
  intros Hne. unfold accumulate. cbn [fst snd].
  now rewrite (proj2 (Z.eqb_neq _ _) Hne).
Qed.

Lemma keys_prod_map (f : SparseMatrix -> SparseMatrix) (l : list (Z * SparseMatrix)) :
  (prod_map id f <$> l).*1 = l.*1.
Proof. induction l as [|[k M] l IH]; [reflexivity|]. rewrite !fmap_cons, IH. reflexivity. Qed.

Lemma accumulate_fresh lhs (l : list (Z * SparseMatrix)) :
  NoDup l.*1 ->
  forall acc : CoeffMap,
    (forall k, k ∈ l.*1 -> acc !! k = None) ->
    foldlM (accumulate lhs) l acc
    = if decide (Forall (fun it : Z * SparseMatrix => m_cols lhs = m_rows it.2) l)
      then Ok (list_to_map (prod_map id (mat_mul lhs) <$> l) ∪ acc)
      else Fatal CheckEqFailed.
Proof.
  induction l as [|[k M] l IH]; intros Hnd acc Hfresh.
  - cbn [foldlM fmap list_fmap list_to_map foldr].
    destruct (decide _) as [_|Hn]; [|exfalso; apply Hn; constructor].
    now rewrite (left_id_L ∅ (∪)).
  - rewrite fmap_cons in Hnd, Hfresh. apply NoDup_cons in Hnd as [Hk Hnd].
    cbn [fst] in Hk, Hfresh.
    cbn [foldlM].
    destruct (decide (m_cols lhs = m_rows M)) as [Heq|Hne].
    + rewrite accumulate_new_key; [|exact Heq|apply Hfresh; left].
      cbn [mbind Result_bind].
      rewrite IH; [|exact Hnd|].
      * destruct (decide (Forall _ l)) as [Hall|Hnall].
        -- rewrite decide_True by (constructor; assumption).
           f_equal. rewrite fmap_cons. cbn [list_to_map foldr prod_map fst snd id].
           rewrite <- insert_union_l.
           rewrite insert_union_r; [reflexivity|].
           apply not_elem_of_list_to_map_1.
           now rewrite keys_prod_map.
        -- rewrite decide_False; [reflexivity|].
           intros Hall. apply Forall_cons in Hall as [_ Hall]. contradiction.
      * intros k' Hk'. rewrite lookup_insert_ne; [apply Hfresh; now right|].
        intros ->. contradiction.
    + rewrite accumulate_mismatch by exact Hne.
      cbn [mbind Result_bind]. rewrite decide_False; [reflexivity|].
      intros Hall. apply Forall_cons in Hall as [Hall _]. contradiction.
Qed.

Lemma multiply_by_constant_empty lhs (rhs : CoeffMap) :
  multiply_by_constant lhs rhs ∅ = scale_all lhs rhs.
Proof.
  unfold multiply_by_constant, scale_all.
  rewrite accumulate_fresh; [|apply NoDup_items_keys|intros; apply lookup_empty].
  assert (Hiff : Forall (fun it : Z * SparseMatrix => m_cols lhs = m_rows it.2) (items rhs)
                 <-> map_Forall (fun _ M => m_cols lhs = m_rows M) rhs).
  { rewrite items_Permutation. rewrite map_Forall_to_list.
    apply Forall_proper; [|reflexivity]. intros [k M]. reflexivity. }
  destruct (decide (map_Forall _ rhs)) as [Hall|Hnall].
  - rewrite decide_True by now apply Hiff.
    f_equal. rewrite (right_id_L ∅ (∪)).
    rewrite (list_to_map_proper _ (prod_map id (mat_mul lhs) <$> map_to_list rhs)).
    + rewrite list_to_map_fmap. now rewrite list_to_map_to_list.
    + rewrite keys_prod_map. apply NoDup_items_keys.
    + now rewrite items_Permutation.
  - rewrite decide_False; [reflexivity|]. intros Hall. now apply Hnall, Hiff.
Qed.

(** Accumulation keeps the row count of the operator. *)
Lemma accumulate_rows lhs (result result' : CoeffMap) iter :
  rows_are (m_rows lhs) result ->
  accumulate lhs result iter = Ok result' ->
  rows_are (m_rows lhs) result'.
Proof.
  intros Hrows. unfold accumulate.
  destruct (m_cols lhs =? m_rows iter.2); [|discriminate].
  destruct (result !! iter.1) as [old|] eqn:Hold.
  - unfold mat_add_assign.
    destruct (_ && _); [|discriminate].
    cbn [mbind Result_bind]. intros [= <-].
    apply map_Forall_insert_2; [|exact Hrows].
    cbn [m_rows]. exact (Hrows _ _ Hold).
  - intros [= <-].
    apply map_Forall_insert_2; [reflexivity|exact Hrows].
Qed.

Lemma foldlM_accumulate_rows lhs l (result result' : CoeffMap) :
  rows_are (m_rows lhs) result ->
  foldlM (accumulate lhs) l result = Ok result' ->
  rows_are (m_rows lhs) result'.
Proof.
  revert result.
  induction l as [|iter l IH]; intros result Hrows; cbn [foldlM].
  - now intros [= <-].
  - destruct (accumulate lhs result iter) as [result1|why] eqn:Hstep;
      [|discriminate].
    cbn [mbind Result_bind].
    apply IH. exact (accumulate_rows _ _ _ _ Hrows Hstep).
Qed.

Lemma multiply_by_constant_rows lhs rhs (result result' : CoeffMap) :
  rows_are (m_rows lhs) result ->
  multiply_by_constant lhs rhs result = Ok result' ->
  rows_are (m_rows lhs) result'.
Proof. apply foldlM_accumulate_rows. Qed.

(** ** Coefficient extraction *)

Section LinearExpressionFacts.
Context `{Oracle}.

(** *** The loops of [get_index_coefficients] *)

Lemma slice_walk_forward fuel pos stop step n :
  0 < step -> n - pos <= Z.of_nat fuel ->
  is_fatal (slice_walk fuel pos stop step n) = false.
Proof.
  intros Hstep. revert pos.
  induction fuel as [|fuel IH]; intros pos Hfuel; cbn [slice_walk].
  - destruct (Z.ltb_spec pos 0), (Z.leb_spec n pos); cbn [orb]; try reflexivity; lia.
  - destruct ((pos <? 0) || (n <=? pos)); [reflexivity|].
    destruct (_ || _); [reflexivity|].
    specialize (IH (pos + step) ltac:(lia)).
    destruct (slice_walk fuel (pos + step) stop step n); [reflexivity|discriminate].
Qed.

Lemma slice_walk_backward fuel pos stop step n :
  step < 0 -> pos + 1 <= Z.of_nat fuel ->
  is_fatal (slice_walk fuel pos stop step n) = false.
Proof.
  intros Hstep. revert pos.
  induction fuel as [|fuel IH]; intros pos Hfuel; cbn [slice_walk].
  - destruct (Z.ltb_spec pos 0), (Z.leb_spec n pos); cbn [orb]; try reflexivity; lia.
  - destruct ((pos <? 0) || (n <=? pos)); [reflexivity|].
    destruct (_ || _); [reflexivity|].
    specialize (IH (pos + step) ltac:(lia)).
    destruct (slice_walk fuel (pos + step) stop step n); [reflexivity|discriminate].
Qed.

(** With a nonzero step the loop breaks within the fuel it is given. *)
Lemma slice_walk_terminates pos stop step n :
  step <> 0 ->
  is_fatal (slice_walk (Z.to_nat n) pos stop step n) = false.
Proof.
  intros Hstep.
  destruct (decide (0 <= pos < n)) as [Hin|Hout].
  - destruct (Z.lt_trichotomy step 0) as [?|[?|?]]; [|contradiction|].
    + apply slice_walk_backward; lia.
    + apply slice_walk_forward; lia.
  - destruct (Z.to_nat n); cbn [slice_walk];
      destruct (Z.ltb_spec pos 0), (Z.leb_spec n pos); cbn [orb];
      try reflexivity; lia.
Qed.

(** With a zero step, from a position inside, it never breaks. *)
Lemma slice_walk_zero_step fuel pos stop n :
  0 <= pos < n ->
  slice_walk fuel pos stop 0 n = Fatal Unterminated.
Proof.
  intros Hin.
  induction fuel as [|fuel IH]; cbn [slice_walk];
    destruct (Z.ltb_spec pos 0), (Z.leb_spec n pos); try lia; cbn [orb].
  - reflexivity.
  - cbn [Z.ltb Z.compare andb orb].
    rewrite Z.add_0_r, IH. reflexivity.
Qed.

(** *** The transposition operator *)

(** Row [i c + j] of the transposition operator picks entry [j r + i]. *)
Lemma transpose_row_dot r c (x : list Z) i j :
  0 <= i < r -> 0 <= j < c ->
  sumZ (map (fun t : Triplet =>
               match t with
               | (row, col, v) => if row =? i * c + j then v * vec_at x col else 0
               end)
            (flat_map (fun i' => map (fun j' => (c * j' + i', i' * r + j', 1)) (seqZ 0 r))
                      (seqZ 0 c)))
  = vec_at x (j * r + i).
Proof.
  intros Hi Hj.
  rewrite sumZ_flat_map.
  rewrite (sumZ_map_single _ _ j).
  - rewrite map_map.
    rewrite (sumZ_map_single _ _ i).
    + replace (c * i + j =? i * c + j) with true by (symmetry; apply Z.eqb_eq; lia).
      lia.
    + apply NoDup_seqZ.
    + apply elem_of_seqZ. lia.
    + intros j' Hj' Hne. apply elem_of_seqZ in Hj'.
      destruct (Z.eqb_spec (c * j' + j) (i * c + j)); [|reflexivity].
      exfalso. apply Hne. nia.
  - apply NoDup_seqZ.
  - apply elem_of_seqZ. lia.
  - intros i' Hi' Hne. apply elem_of_seqZ in Hi'.
    rewrite map_map. apply sumZ_map_zero.
    intros j' Hj'. apply elem_of_seqZ in Hj'.
    destruct (Z.eqb_spec (c * j' + i') (i * c + j)) as [Heq|]; [|reflexivity].
    exfalso. apply Hne.
    assert (j' = i \/ j' <= i - 1 \/ i + 1 <= j') as [->|[?|?]] by lia; nia.
Qed.

(** The triplets the loops of [get_transpose_coefficients] push are those of
    a transposition operator for the shape the loops run over. *)
Lemma transposition_entries rows cols :
  transpose_entries rows cols
    (sparse_matrix (rows * cols) (rows * cols)
       (flat_map (fun i =>
          map (fun j => (rows * j + i, i * cols + j, 1)) (seqZ 0 cols))
          (seqZ 0 rows))).
Proof.
  split.
  - intros i j Hi Hj.
    unfold coeff, sparse_matrix. cbn [m_entries].
    rewrite sumZ_flat_map, (sumZ_map_single _ _ i).
    + rewrite map_map, (sumZ_map_single _ _ j).
      * now rewrite !Z.eqb_refl.
      * apply NoDup_seqZ.
      * apply elem_of_seqZ. lia.
      * intros j' Hj' Hne.
        destruct (Z.eqb_spec (rows * j' + i) (rows * j + i)); [|reflexivity].
        exfalso. apply Hne. nia.
    + apply NoDup_seqZ.
    + apply elem_of_seqZ. lia.
    + intros i' Hi' Hne. apply elem_of_seqZ in Hi'.
      rewrite map_map. apply sumZ_map_zero.
      intros j' Hj'. apply elem_of_seqZ in Hj'.
      destruct (Z.eqb_spec (rows * j' + i') (rows * j + i)) as [Heq|];
        [|reflexivity].
      exfalso. apply Hne.
      assert (j' = j \/ j' <= j - 1 \/ j + 1 <= j') as [->|[?|?]] by lia; nia.
  - intros a b Hnz.
    unfold coeff, sparse_matrix in Hnz. cbn [m_entries] in Hnz.
    apply sumZ_map_nonzero in Hnz as ([[row col] v] & Hin & Hv).
    apply list_elem_of_In, in_flat_map in Hin as (i & Hi & Hin).
    apply in_map_iff in Hin as (j & [= <- <- <-] & Hj).
    apply list_elem_of_In, elem_of_seqZ in Hi, Hj.
    exists i, j.
    destruct (Z.eqb_spec (rows * j + i) a), (Z.eqb_spec (i * cols + j) b);
      cbn [andb] in Hv; try congruence.
    repeat split; lia.
Qed.

(** C2, amended: the loops of [get_transpose_coefficients] run over the shape
    of the [TRANSPOSE] node itself.  For an argument of shape [(r, c)], hence
    a node of shape [(c, r)], the operator is [(c r) x (c r)]; it holds one
    triplet per pair [(i, j)] in [[0, c) x [0, r)], a one at row [c j + i]
    and column [i r + j], and nothing else; applied to the column-major
    flattening of any [(r, c)] matrix [M] it yields the column-major
    flattening of the transpose of [M]: position [i c + j], which is entry
    [(j, i)] of the [(c, r)] result, holds [M(i, j)]. *)
Theorem get_transpose_coefficients_transposes expr r c :
  size expr = (c, r) ->
  exists T,
    get_transpose_coefficients expr = [T]
    /\ m_rows T = c * r /\ m_cols T = c * r
    /\ m_entries T
       = flat_map (fun i => map (fun j => (c * j + i, i * r + j, 1)) (seqZ 0 r))
                  (seqZ 0 c)
    /\ transpose_entries c r T
    /\ forall M,
         d_rows M = r -> d_cols M = c ->
         length (mat_vec T (to_vector M)) = Z.to_nat (c * r)
         /\ forall i j,
              0 <= i < r -> 0 <= j < c ->
              vec_at (mat_vec T (to_vector M)) (i * c + j) = dense_at M i j.
Proof.
  intros Hsize.
  unfold get_transpose_coefficients. rewrite Hsize. cbn [fst snd].
  eexists. split; [reflexivity|].
  split; [reflexivity|]. split; [reflexivity|]. split; [reflexivity|].
  split; [apply transposition_entries|].
  intros M Hrows Hcols. split.
  - unfold mat_vec. cbn [sparse_matrix m_rows].
    now rewrite length_map, length_seqZ.
  - intros i j Hi Hj.
    assert (Hout : 0 <= i * c + j < c * r).
    { assert (i * c <= (r - 1) * c) by nia. nia. }
    assert (Hin : 0 <= j * r + i < r * c).
    { assert (j * r <= (c - 1) * r) by nia. nia. }
    unfold mat_vec. cbn [sparse_matrix m_rows].
    rewrite vec_at_map_seqZ by exact Hout.
    unfold row_dot, sparse_matrix. cbn [m_entries].
    rewrite transpose_row_dot by assumption.
    unfold to_vector, dense_at. subst r c.
    now rewrite vec_at_map_seqZ by exact Hin.
Qed.

(** *** The broadcasting operators, of the matrix they are handed *)

Lemma int_of_fits z : fits_int z = true -> int_of z = z.
Proof.
  unfold fits_int, int_of. intros Hz.
  apply andb_prop in Hz as [Hlo Hhi].
  apply Z.leb_le in Hlo, Hhi.
  rewrite Z.mod_small; lia.
Qed.

Lemma in_bounds_Forall rows cols tripletList :
  in_bounds rows cols tripletList = true
  <-> 0 <= rows /\ 0 <= cols
      /\ Forall (fun t : Triplet => 0 <= t.1.1 < rows /\ 0 <= t.1.2 < cols)
                tripletList.
Proof.
  unfold in_bounds. rewrite !andb_true_iff, forallb_forall, Forall_forall.
  rewrite !Z.leb_le. split.
  - intros [[Hr Hc] Hall]. split; [exact Hr|]. split; [exact Hc|].
    intros [[r c] v] Hin. apply list_elem_of_In, Hall in Hin.
    rewrite !andb_true_iff, !Z.leb_le, !Z.ltb_lt in Hin. cbn [fst snd]. lia.
  - intros (Hr & Hc & Hall). split; [split; assumption|].
    intros [[r c] v] Hin. apply list_elem_of_In, Hall in Hin.
    cbn [fst snd] in Hin.
    rewrite !andb_true_iff, !Z.leb_le, !Z.ltb_lt. lia.
Qed.

Lemma flat_map_ext_in {A B} (f g : A -> list B) l :
  (forall a, In a l -> f a = g a) -> flat_map f l = flat_map g l.
Proof.
  induction l as [|a l IH]; intros Hfg; cbn [flat_map]; [reflexivity|].
  rewrite Hfg by now left. rewrite IH; [reflexivity|].
  intros a' Ha'. apply Hfg. now right.
Qed.

(** Where no [int] overflows, [get_left_mul_coefficients] assembles the
    triplets of the exact products. *)
Lemma get_left_mul_coefficients_exact expr block :
  0 <= (size expr).2 ->
  in_bounds (m_rows block) (m_cols block) (m_entries block) = true ->
  fits_int ((size expr).2 * m_rows block) = true ->
  fits_int ((size expr).2 * m_cols block) = true ->
  get_left_mul_coefficients expr block
  = Ok [sparse_matrix ((size expr).2 * m_rows block)
          ((size expr).2 * m_cols block)
          (flat_map (fun k =>
             map (fun it : Triplet =>
                    match it with
                    | (row, col, value) =>
                        (k * m_rows block + row, k * m_cols block + col, value)
                    end) (m_entries block))
             (seqZ 0 (size expr).2))].
Proof.
  intros Hn Hblock Hnr Hnc.
  apply in_bounds_Forall in Hblock as (Hr & Hc & Hblock).
  rewrite Forall_forall in Hblock.
  unfold get_left_mul_coefficients.
  set (n := (size expr).2) in *.
  set (r := m_rows block) in *. set (c := m_cols block) in *.
  destruct (decide (n = 0)) as [Hzero|Hpos].
  { rewrite Hzero. cbn [seqZ Z.to_nat seq fmap list_fmap flat_map].
    rewrite !Z.mul_0_l. reflexivity. }
  assert (Hbounds : forall z, 0 <= z <= n * r \/ 0 <= z <= n * c ->
                              int_of z = z).
  { unfold fits_int in Hnr, Hnc.
    apply andb_prop in Hnr as [_ Hnr], Hnc as [_ Hnc].
    apply Z.leb_le in Hnr, Hnc.
    intros z Hz. apply int_of_fits. unfold fits_int.
    apply andb_true_intro. split; [apply Z.leb_le|apply Z.leb_le]; lia. }
  rewrite (Hbounds r), (Hbounds c) by nia.
  rewrite (Hbounds (n * r)), (Hbounds (n * c)) by nia.
  assert (Hlist :
    flat_map (fun curr_block =>
      map (fun it : Triplet =>
             match it with
             | (row, col, value) =>
                 (int_of (int_of (curr_block * r) + row),
                  int_of (int_of (curr_block * c) + col), value)
             end) (m_entries block)) (seqZ 0 n)
    = flat_map (fun k =>
        map (fun it : Triplet =>
               match it with
               | (row, col, value) => (k * r + row, k * c + col, value)
               end) (m_entries block)) (seqZ 0 n)).
  { apply flat_map_ext_in. intros k Hk.
    apply list_elem_of_In, elem_of_seqZ in Hk.
    apply map_ext_in. intros [[row col] value] Hit.
    apply list_elem_of_In, Hblock in Hit. cbn [fst snd] in Hit.
    rewrite (Hbounds (k * r)), (Hbounds (k * c)) by nia.
    rewrite (Hbounds (k * r + row)), (Hbounds (k * c + col)) by nia.
    reflexivity. }
  rewrite Hlist. unfold setFromTriplets.
  match goal with
  | |- (if ?b then _ else _) ≫= _ = _ => assert (Hin : b = true)
  end.
  { apply in_bounds_Forall. split; [nia|]. split; [nia|].
    apply Forall_forall. intros [[row col] value] Hin.
    apply list_elem_of_In, in_flat_map in Hin as (k & Hk & Hin).
    apply in_map_iff in Hin as ([[row' col'] value'] & [= <- <- <-] & Hit).
    apply list_elem_of_In, elem_of_seqZ in Hk.
    apply list_elem_of_In, Hblock in Hit. cbn [fst snd] in Hit |- *.
    nia. }
  rewrite Hin. reflexivity.
Qed.

(** Where no [int] overflows, [get_right_mul_coefficients] assembles the
    triplets of the exact products. *)
Lemma get_right_mul_coefficients_exact expr constant :
  0 <= (size expr).1 ->
  in_bounds (m_rows constant) (m_cols constant) (m_entries constant) = true ->
  fits_int (m_rows constant) = true ->
  fits_int (m_cols constant) = true ->
  fits_int (m_cols constant * (size expr).1) = true ->
  fits_int (m_rows constant * (size expr).1) = true ->
  get_right_mul_coefficients expr constant
  = Ok [sparse_matrix (m_cols constant * (size expr).1)
          (m_rows constant * (size expr).1)
          (flat_map (fun it : Triplet =>
             match it with
             | (row, col, val) =>
                 map (fun i => (col * (size expr).1 + i,
                                row * (size expr).1 + i, val))
                     (seqZ 0 (size expr).1)
             end) (m_entries constant))].
Proof.
  intros Hn Hconstant Hr Hc Hcn Hrn.
  apply in_bounds_Forall in Hconstant as (Hr0 & Hc0 & Hconstant).
  rewrite Forall_forall in Hconstant.
  unfold get_right_mul_coefficients.
  set (n := (size expr).1) in *.
  set (r := m_rows constant) in *. set (c := m_cols constant) in *.
  rewrite (int_of_fits r), (int_of_fits c) by assumption.
  rewrite (int_of_fits (c * n)), (int_of_fits (r * n)) by assumption.
  assert (Hbounds : forall z, 0 <= z <= c * n \/ 0 <= z <= r * n ->
                              int_of z = z).
  { unfold fits_int in Hcn, Hrn.
    apply andb_prop in Hcn as [_ Hcn], Hrn as [_ Hrn].
    apply Z.leb_le in Hcn, Hrn.
    intros z Hz. apply int_of_fits. unfold fits_int.
    apply andb_true_intro. split; [apply Z.leb_le|apply Z.leb_le]; lia. }
  assert (Hlist :
    flat_map (fun it : Triplet =>
      match it with
      | (row, col, val) =>
          map (fun i => (int_of (int_of (col * n) + i),
                         int_of (int_of (row * n) + i), val)) (seqZ 0 n)
      end) (m_entries constant)
    = flat_map (fun it : Triplet =>
        match it with
        | (row, col, val) =>
            map (fun i => (col * n + i, row * n + i, val)) (seqZ 0 n)
        end) (m_entries constant)).
  { apply flat_map_ext_in. intros [[row col] val] Hit.
    apply list_elem_of_In, Hconstant in Hit. cbn [fst snd] in Hit.
    apply map_ext_in. intros i Hi.
    apply list_elem_of_In, elem_of_seqZ in Hi.
    rewrite (Hbounds (col * n)), (Hbounds (row * n)) by nia.
    rewrite (Hbounds (col * n + i)), (Hbounds (row * n + i)) by nia.
    reflexivity. }
  rewrite Hlist. unfold setFromTriplets.
  match goal with
  | |- (if ?b then _ else _) ≫= _ = _ => assert (Hin : b = true)
  end.
  { apply in_bounds_Forall. split; [nia|]. split; [nia|].
    apply Forall_forall. intros [[row' col'] val'] Hin.
    apply list_elem_of_In, in_flat_map in Hin as ([[row col] val] & Hit & Hin).
    apply in_map_iff in Hin as (i & [= <- <- <-] & Hi).
    apply list_elem_of_In, elem_of_seqZ in Hi.
    apply list_elem_of_In, Hconstant in Hit. cbn [fst snd] in Hit |- *.
    nia. }
  rewrite Hin. reflexivity.
Qed.

(** The triplets of the diagonal and transposition operators lie inside
    the matrices they are set in: the assertion of [setFromTriplets] holds
    there, and the definitions leave it out. *)
Lemma diag_and_transpose_in_bounds expr :
  0 <= (size expr).1 -> 0 <= (size expr).2 ->
  Forall (fun F => in_bounds (m_rows F) (m_cols F) (m_entries F) = true)
         (get_diag_mat_coefficients expr ++ get_diag_vec_coefficients expr
          ++ get_transpose_coefficients expr).
Proof.
  intros Hrows Hcols.
  unfold get_diag_mat_coefficients, get_diag_vec_coefficients,
    get_transpose_coefficients.
  set (rows := (size expr).1) in *. set (cols := (size expr).2) in *.
  repeat constructor; apply in_bounds_Forall; cbn [sparse_matrix m_rows m_cols
    m_entries]; (split; [nia|]); (split; [nia|]); apply Forall_forall;
    intros [[r c] v] Hin.
  - apply list_elem_of_In, in_map_iff in Hin as (i & [= <- <- <-] & Hi).
    apply list_elem_of_In, elem_of_seqZ in Hi. cbn [fst snd]. nia.
  - apply list_elem_of_In, in_map_iff in Hin as (i & [= <- <- <-] & Hi).
    apply list_elem_of_In, elem_of_seqZ in Hi. cbn [fst snd]. nia.
  - apply list_elem_of_In, in_flat_map in Hin as (i & Hi & Hin).
    apply in_map_iff in Hin as (j & [= <- <- <-] & Hj).
    apply list_elem_of_In, elem_of_seqZ in Hi, Hj. cbn [fst snd]. nia.
Qed.

(** X1: Where no int overflows -- the expression has n >= 0 columns, the
    block it is handed is a matrix (sizes not negative, entries inside), and
    n*rows(block) and n*cols(block) fit an int --
    get_left_mul_coefficients returns one matrix of shape (n*rows(block),
    n*cols(block)), and its entry (a, b) is the sum over k in [0, n) of
    block(a - k*rows(block), b - k*cols(block)): n copies of the block it is
    handed, copy k shifted k blocks down the diagonal. *)
Lemma get_left_mul_coefficients_block_diagonal expr block :
  0 <= (size expr).2 ->
  in_bounds (m_rows block) (m_cols block) (m_entries block) = true ->
  fits_int ((size expr).2 * m_rows block) = true ->
  fits_int ((size expr).2 * m_cols block) = true ->
  exists F,
    get_left_mul_coefficients expr block = Ok [F]
    /\ m_rows F = (size expr).2 * m_rows block
    /\ m_cols F = (size expr).2 * m_cols block
    /\ forall a b,
         coeff F a b
         = sumZ (map (fun k => coeff block (a - k * m_rows block)
                                            (b - k * m_cols block))
                     (seqZ 0 (size expr).2)).
Proof.
  intros Hn Hblock Hnr Hnc.
  eexists. split; [now apply get_left_mul_coefficients_exact|]. repeat split.
  intros a b. unfold coeff at 1, sparse_matrix. cbn [m_entries].
  rewrite sumZ_flat_map. apply sumZ_map_ext. intros k _.
  rewrite map_map. unfold coeff. apply sumZ_map_ext.
  intros [[row col] value] _.
  destruct (Z.eqb_spec (k * m_rows block + row) a),
           (Z.eqb_spec row (a - k * m_rows block)); try lia;
  destruct (Z.eqb_spec (k * m_cols block + col) b),
           (Z.eqb_spec col (b - k * m_cols block)); try lia; reflexivity.
Qed.

(** X2: Where no int overflows -- the expression has n >= 0 rows, the
    constant it is handed is a matrix (sizes not negative, entries inside),
    and rows(constant), cols(constant), cols(constant)*n and
    rows(constant)*n fit an int -- get_right_mul_coefficients returns one
    matrix of shape (cols(constant)*n, rows(constant)*n); for all p, q and
    all i, i' in [0, n), its entry (q*n + i, p*n + i') is constant(p, q)
    when i = i' and 0 otherwise. *)
Lemma get_right_mul_coefficients_scaled_identities expr constant :
  0 <= (size expr).1 ->
  in_bounds (m_rows constant) (m_cols constant) (m_entries constant) = true ->
  fits_int (m_rows constant) = true ->
  fits_int (m_cols constant) = true ->
  fits_int (m_cols constant * (size expr).1) = true ->
  fits_int (m_rows constant * (size expr).1) = true ->
  exists F,
    get_right_mul_coefficients expr constant = Ok [F]
    /\ m_rows F = m_cols constant * (size expr).1
    /\ m_cols F = m_rows constant * (size expr).1
    /\ forall p q i i',
         0 <= i < (size expr).1 -> 0 <= i' < (size expr).1 ->
         coeff F (q * (size expr).1 + i) (p * (size expr).1 + i')
         = if i =? i' then coeff constant p q else 0.
Proof.
  intros Hn Hconstant Hr Hc Hcn Hrn.
  eexists. split; [now apply get_right_mul_coefficients_exact|]. repeat split.
  intros p q i i' Hi Hi'.
  set (n := (size expr).1) in *.
  unfold coeff at 1, sparse_matrix. cbn [m_entries].
  rewrite sumZ_flat_map.
  transitivity (sumZ (map (fun t : Triplet =>
                             match t with
                             | (row, col, val) =>
                                 if i =? i'
                                 then (if (row =? p) && (col =? q) then val else 0)
                                 else 0
                             end) (m_entries constant))).
  - apply sumZ_map_ext. intros [[row col] val] _.
    rewrite map_map.
    destruct (decide (row = p /\ col = q /\ i = i')) as [(-> & -> & <-)|Hno].
    + rewrite !Z.eqb_refl. cbn [andb].
      rewrite (sumZ_map_single _ _ i).
      * now rewrite !Z.eqb_refl.
      * apply NoDup_seqZ.
      * apply elem_of_seqZ. lia.
      * intros i0 Hi0 Hne.
        destruct (Z.eqb_spec (q * n + i0) (q * n + i)); [lia|reflexivity].
    + rewrite sumZ_map_zero.
      * destruct (Z.eqb_spec i i'); [|reflexivity].
        destruct (Z.eqb_spec row p); [|reflexivity].
        destruct (Z.eqb_spec col q); [|reflexivity].
        exfalso. apply Hno. auto.
      * intros i0 Hi0. apply elem_of_seqZ in Hi0.
        destruct (Z.eqb_spec (col * n + i0) (q * n + i)) as [Hrow|];
          [|reflexivity].
        destruct (Z.eqb_spec (row * n + i0) (p * n + i')) as [Hcol|];
          [|reflexivity].
        exfalso. apply Hno.
        assert (col = q) by nia. assert (row = p) by nia.
        subst. lia.
  - destruct (i =? i').
    + reflexivity.
    + apply sumZ_map_zero. now intros [[row col] val] _.
Qed.

(** *** Multiplication nodes *)

Lemma get_coefficients_mul_unfold arg0 arg1 attr :
  get_coefficients (Expr MUL [arg0; arg1] attr)
  = (lhs_coeffs ← get_coefficients arg0;
     rhs_coeffs ← get_coefficients arg1;
     let expr := Expr MUL [arg0; arg1] attr in
     if is_constant lhs_coeffs then
       f_coeffs ← get_left_mul_coefficients expr
                    (at_key lhs_coeffs kConstCoefficientId);
       F ← f_at f_coeffs 0;
       multiply_by_constant F rhs_coeffs ∅
     else if is_constant rhs_coeffs then
       f_coeffs ← get_right_mul_coefficients expr
                    (at_key rhs_coeffs kConstCoefficientId);
       F ← f_at f_coeffs 0;
       multiply_by_constant F lhs_coeffs ∅
     else Fatal MultiplyingTwoNonConstants).
Proof. reflexivity. Qed.

(** When they return, the two broadcasting functions return one matrix, of
    the sizes they computed. *)
Lemma get_left_mul_coefficients_shape expr block f_coeffs :
  get_left_mul_coefficients expr block = Ok f_coeffs ->
  exists F,
    f_coeffs = [F]
    /\ m_rows F = int_of ((size expr).2 * int_of (m_rows block))
    /\ m_cols F = int_of ((size expr).2 * int_of (m_cols block)).
Proof.
  unfold get_left_mul_coefficients, setFromTriplets.
  destruct (in_bounds _ _ _); [|discriminate].
  cbn [mbind Result_bind]. intros [= <-]. eexists. repeat split.
Qed.

Lemma get_right_mul_coefficients_shape expr constant f_coeffs :
  get_right_mul_coefficients expr constant = Ok f_coeffs ->
  exists F,
    f_coeffs = [F]
    /\ m_rows F = int_of (int_of (m_cols constant) * (size expr).1)
    /\ m_cols F = int_of (int_of (m_rows constant) * (size expr).1).
Proof.
  unfold get_right_mul_coefficients, setFromTriplets.
  destruct (in_bounds _ _ _); [|discriminate].
  cbn [mbind Result_bind]. intros [= <-]. eexists. repeat split.
Qed.

(** *** Row counts *)

Lemma accumulate_args_rows d f_coeffs rest i (coeffs result : CoeffMap) :
  Forall (fun F => m_rows F = d) f_coeffs ->
  rows_are d coeffs ->
  accumulate_args f_coeffs rest i coeffs = Ok result ->
  rows_are d result.
Proof.
  intros Hf. revert i coeffs.
  induction rest as [|arg_i rest IH]; intros i coeffs Hrows; cbn [accumulate_args].
  - now intros [= <-].
  - destruct (get_coefficients arg_i) as [arg_coeffs|why]; [|discriminate].
    cbn [mbind Result_bind]. unfold f_at.
    destruct (nth_error f_coeffs i) as [F|] eqn:HF; [|discriminate].
    cbn [mbind Result_bind].
    destruct (multiply_by_constant F arg_coeffs coeffs) as [coeffs'|why] eqn:Hmul;
      [|discriminate].
    cbn [mbind Result_bind].
    apply IH.
    assert (HFd : m_rows F = d).
    { rewrite Forall_forall in Hf. apply Hf.
      apply list_elem_of_In. eapply nth_error_In. exact HF. }
    rewrite <- HFd in *.
    exact (multiply_by_constant_rows _ _ _ _ Hrows Hmul).
Qed.

Lemma stack_loop_rows expr vertical rest offset :
  Forall (fun F => m_rows F = dim expr) (stack_loop expr vertical rest offset).
Proof.
  revert offset.
  induction rest as [|a rest IH]; intros offset; cbn [stack_loop].
  - constructor.
  - constructor; [reflexivity|apply IH].
Qed.

Lemma coefficient_function_rows t f expr f_coeffs :
  type expr = t ->
  shape_fits expr ->
  kCoefficientFunctions t = Some f ->
  f expr = Ok f_coeffs ->
  Forall (fun F => m_rows F = dim expr) f_coeffs.
Proof.
  intros Ht Hfits Hf Hrun.
  destruct expr as [t' args attr]. cbn [type] in Ht. subst t'.
  destruct t; cbn [kCoefficientFunctions] in Hf; try discriminate;
    injection Hf as <-.
  - (* ADD *)
    injection Hrun as <-. unfold get_add_coefficients.
    apply Forall_forall. intros F HF.
    apply list_elem_of_In, in_map_iff in HF as (a & <- & _).
    destruct (dim a =? 1); reflexivity.
  - (* NEG *)
    injection Hrun as <-. repeat constructor.
  - (* SUM_ENTRIES *)
    unfold get_sum_entries_coefficients in Hrun.
    destruct (arg _ 0) as [arg0|]; [|discriminate].
    cbn [mbind Result_bind] in Hrun. injection Hrun as <-.
    cbn [shape_fits] in Hfits.
    repeat constructor. unfold dim. rewrite Hfits. reflexivity.
  - (* HSTACK *)
    injection Hrun as <-. apply stack_loop_rows.
  - (* VSTACK *)
    injection Hrun as <-. apply stack_loop_rows.
  - (* RESHAPE *)
    injection Hrun as <-. repeat constructor.
  - (* INDEX *)
    unfold get_index_coefficients in Hrun.
    destruct (arg _ 0) as [arg0|]; [|discriminate].
    cbn [mbind Result_bind] in Hrun.
    match type of Hrun with
    | (if ?b then _ else _) = _ => destruct b
    end.
    + injection Hrun as <-. repeat constructor.
    + destruct (attr_ptr _); try discriminate.
      match type of Hrun with
      | (?m ≫= _) = _ => destruct m as [col_walk|]; [|discriminate]
      end.
      cbn [mbind Result_bind] in Hrun.
      match type of Hrun with
      | (?m ≫= _) = _ => destruct m as [row_walk|]; [|discriminate]
      end.
      cbn [mbind Result_bind] in Hrun.
      unfold setFromTriplets in Hrun.
      destruct (in_bounds _ _ _); [|discriminate].
      injection Hrun as <-. repeat constructor.
  - (* DIAG_MAT *)
    injection Hrun as <-. cbn [shape_fits] in Hfits.
    repeat constructor. cbn. unfold dim. rewrite Hfits. lia.
  - (* DIAG_VEC *)
    injection Hrun as <-. cbn [shape_fits] in Hfits.
    repeat constructor. cbn. unfold dim. now rewrite Hfits.
  - (* TRANSPOSE *)
    injection Hrun as <-. repeat constructor.
Qed.

Lemma get_coefficients_unfold_other t args attr :
  t <> CONST -> t <> VAR -> t <> MUL ->
  get_coefficients (Expr t args attr)
  = match kCoefficientFunctions t with
    | None => Fatal NoLinearCoefficients
    | Some coefficient_function =>
        f_coeffs ← coefficient_function (Expr t args attr);
        accumulate_args f_coeffs args 0 ∅
    end.
Proof. destruct t; intros; try contradiction; reflexivity. Qed.

(** X6: For a node of any type but MUL whose shape fits its type (a CONST has
    the shape of its data, a SUM_ENTRIES is (1,1), a DIAG_MAT has one
    column, a DIAG_VEC is square), every matrix of the CoeffMap
    get_coefficients returns has dim(expr) rows, whatever the children
    returned and also where contributions of several children were added
    under one key. *)
Lemma get_coefficients_rows_off_mul expr coeffs :
  type expr <> MUL ->
  shape_fits expr ->
  get_coefficients expr = Ok coeffs ->
  rows_are (dim expr) coeffs.
Proof.
  intros Hmul Hfits Hrun.
  destruct expr as [t args attr]. cbn [type] in Hmul.
  destruct (decide (t = CONST)) as [->|Hconst].
  { cbn [get_coefficients] in Hrun.
    destruct attr as [|d| | | |]; try discriminate.
    injection Hrun as <-.
    destruct Hfits as [Hsize Hnonneg].
    apply map_Forall_singleton.
    cbn [sparseView m_rows]. unfold to_vector.
    rewrite length_map, length_seqZ.
    unfold dim. rewrite Hsize. cbn [fst snd]. lia. }
  destruct (decide (t = VAR)) as [->|Hvar].
  { cbn [get_coefficients] in Hrun.
    destruct attr; try discriminate.
    injection Hrun as <-.
    apply map_Forall_singleton. reflexivity. }
  rewrite get_coefficients_unfold_other in Hrun by assumption.
  destruct (kCoefficientFunctions t) as [f|] eqn:Hf; [|discriminate].
  destruct (f (Expr t args attr)) as [f_coeffs|] eqn:Hfrun; [|discriminate].
  cbn [mbind Result_bind] in Hrun.
  eapply accumulate_args_rows; [|apply map_Forall_empty|exact Hrun].
  eapply coefficient_function_rows; [reflexivity|exact Hfits|exact Hf|exact Hfrun].
Qed.

(** X7: When get_coefficients returns on a binary MUL node, every matrix of
    the result has the row count of the broadcasting operator, an int
    product: the column count of the node times the rows of the left
    child's CONST_ID entry if the left child is constant, otherwise the
    columns of the right child's CONST_ID entry times the row count of the
    node. *)
Lemma get_coefficients_mul_rows arg0 arg1 attr lhs_coeffs rhs_coeffs coeffs :
  get_coefficients arg0 = Ok lhs_coeffs ->
  get_coefficients arg1 = Ok rhs_coeffs ->
  let expr := Expr MUL [arg0; arg1] attr in
  get_coefficients expr = Ok coeffs ->
  rows_are
    (if is_constant lhs_coeffs
     then int_of ((size expr).2
                  * int_of (m_rows (at_key lhs_coeffs kConstCoefficientId)))
     else int_of (int_of (m_cols (at_key rhs_coeffs kConstCoefficientId))
                  * (size expr).1))
    coeffs.
Proof.
  intros Hlhs Hrhs expr. subst expr.
  rewrite get_coefficients_mul_unfold, Hlhs, Hrhs.
  cbn [mbind Result_bind].
  destruct (is_constant lhs_coeffs); [|destruct (is_constant rhs_coeffs)];
    [| |discriminate].
  - destruct (get_left_mul_coefficients _ _) as [f_coeffs|] eqn:Hf;
      [|discriminate].
    apply get_left_mul_coefficients_shape in Hf as (F & -> & <- & _).
    cbn [f_at nth_error mbind Result_bind]. intros Hrun.
    apply multiply_by_constant_rows in Hrun;
      [exact Hrun|apply map_Forall_empty].
  - destruct (get_right_mul_coefficients _ _) as [f_coeffs|] eqn:Hf;
      [|discriminate].
    apply get_right_mul_coefficients_shape in Hf as (F & -> & <- & _).
    cbn [f_at nth_error mbind Result_bind]. intros Hrun.
    apply multiply_by_constant_rows in Hrun;
      [exact Hrun|apply map_Forall_empty].
Qed.

End LinearExpressionFacts.

(** ** The cone transform *)

Section LinearConeTransformFacts.
Context `{Oracle}.

Lemma transform_expression_unfold t args attr :
  transform_expression (Expr t args attr)
  = (linear_args ← transform_args args;
     match kTransforms t with
     | Some transform_function => transform_function (Expr t linear_args attr)
     | None => mret (Expr t linear_args attr)
     end).
Proof. reflexivity. Qed.

(** *** Runs that only append *)

Lemma with_prefix_nil {A} (r : Result (A * TransformState)) :
  with_prefix [] r = r.
Proof. destruct r as [[a [n em]]|why]; reflexivity. Qed.

Lemma with_prefix_app {A} acc1 acc2 (r : Result (A * TransformState)) :
  with_prefix acc1 (with_prefix acc2 r) = with_prefix (acc1 ++ acc2) r.
Proof.
  destruct r as [[a [n em]]|why]; simpl; [|reflexivity].
  now rewrite app_assoc.
Qed.

Lemma appends_only_ret {A} (a : A) : appends_only (mret a).
Proof. intros n acc. cbn. now rewrite app_nil_r. Qed.

Lemma appends_only_abort {A} why : appends_only (@abort A why).
Proof. intros n acc. reflexivity. Qed.

Lemma appends_only_bind {A B} (m : Transform A) (f : A -> Transform B) :
  appends_only m -> (forall a, appends_only (f a)) -> appends_only (m ≫= f).
Proof.
  intros Hm Hf n acc.
  unfold mbind, Transform_bind.
  rewrite Hm.
  destruct (m {| next_var_id := n; emitted := [] |}) as [[a [n1 em1]]|why];
    simpl; [|reflexivity].
  rewrite (Hf a n1 (acc ++ em1)), (Hf a n1 em1).
  now rewrite with_prefix_app.
Qed.

Lemma appends_only_push_back c : appends_only (push_back c).
Proof. intros n acc. reflexivity. Qed.

Lemma appends_only_arg_of e i : appends_only (arg_of e i).
Proof.
  intros n acc. unfold arg_of.
  destruct (arg e i); simpl; [|reflexivity].
  now rewrite app_nil_r.
Qed.

Lemma appends_only_epi_var parent label : appends_only (epi_var parent label).
Proof. intros n acc. cbn. now rewrite app_nil_r. Qed.

Lemma appends_only_scalar_epi_var parent label :
  appends_only (scalar_epi_var parent label).
Proof. intros n acc. cbn. now rewrite app_nil_r. Qed.

Create HintDb appends.
#[local] Hint Resolve appends_only_ret appends_only_abort appends_only_push_back
  appends_only_arg_of appends_only_epi_var appends_only_scalar_epi_var
  : appends.

Ltac appends_step :=
  repeat first
    [ apply appends_only_bind; [|intros ?]
    | solve [auto with appends] ].

Lemma appends_only_transform_abs expr : appends_only (transform_abs expr).
Proof. unfold transform_abs. appends_step. Qed.

Lemma appends_only_transform_p_norm expr : appends_only (transform_p_norm expr).
Proof.
  unfold transform_p_norm.
  destruct (attr_ptr expr); auto with appends.
  destruct (p =? 1); auto with appends.
  apply appends_only_bind; [apply appends_only_transform_abs|].
  intros t. auto with appends.
Qed.

Lemma appends_only_transform_quad_over_lin expr :
  appends_only (transform_quad_over_lin expr).
Proof. unfold transform_quad_over_lin. appends_step. Qed.

Lemma appends_only_kTransforms t f expr :
  kTransforms t = Some f -> appends_only (f expr).
Proof.
  destruct t; intros [= <-];
    auto using appends_only_transform_abs, appends_only_transform_p_norm,
               appends_only_transform_quad_over_lin.
Qed.

Lemma appends_only_transform_args args :
  Forall (fun e => appends_only (transform_expression e)) args ->
  appends_only (transform_args args).
Proof.
  induction 1 as [|a args Ha _ IH]; simpl.
  - auto with appends.
  - apply appends_only_bind; [exact Ha|]. intros a'.
    apply appends_only_bind; [exact IH|]. intros tail.
    auto with appends.
Qed.

Lemma appends_only_transform_expression e :
  appends_only (transform_expression e).
Proof.
  induction e as [t args attr IH] using Expression_ind'.
  rewrite transform_expression_unfold.
  apply appends_only_bind.
  - now apply appends_only_transform_args.
  - intros linear_args.
    destruct (kTransforms t) as [f|] eqn:Hf.
    + now apply (appends_only_kTransforms t).
    + auto with appends.
Qed.

Lemma appends_only_transform_constraints rest :
  appends_only (transform_constraints rest).
Proof.
  induction rest as [|c rest IH]; simpl.
  - auto with appends.
  - apply appends_only_bind; [apply appends_only_transform_expression|].
    intros c'.
    apply appends_only_bind; [auto with appends|].
    intros _. exact IH.
Qed.

(** *** Trees without registered atoms *)

Lemma kTransforms_none t :
  match t with ABS | P_NORM | QUAD_OVER_LIN => False | _ => True end ->
  kTransforms t = None.
Proof. destruct t; simpl; tauto. Qed.

Lemma transform_args_identity args st :
  Forall (fun e => forall st, transform_expression e st = Ok (e, st)) args ->
  transform_args args st = Ok (args, st).
Proof.
  intros Hall. revert st.
  induction Hall as [|a args Ha _ IH]; intros st; simpl.
  - reflexivity.
  - unfold mbind, Transform_bind. rewrite Ha, IH. reflexivity.
Qed.

Lemma transform_expression_identity e :
  no_registered_atom e = true ->
  forall st, transform_expression e st = Ok (e, st).
Proof.
  induction e as [t args attr IH] using Expression_ind'.
  intros Hno st.
  assert (Hargs : forallb no_registered_atom args = true)
    by (destruct t; simpl in Hno; (discriminate || exact Hno)).
  assert (Hnone : kTransforms t = None)
    by (destruct t; simpl in Hno; (discriminate || reflexivity)).
  rewrite transform_expression_unfold.
  unfold mbind, Transform_bind.
  rewrite transform_args_identity.
  - now rewrite Hnone.
  - rewrite Forall_forall in IH |- *.
    intros e He. apply IH; [exact He|].
    rewrite forallb_forall in Hargs. apply Hargs.
    now apply list_elem_of_In.
Qed.

(** *** The minter only counts upward *)

Lemma counts_upward_ret {A} (a : A) : counts_upward (mret a).
Proof. intros st a' st' [= _ <-]. lia. Qed.

Lemma counts_upward_abort {A} why : counts_upward (@abort A why).
Proof. intros st a st' [=]. Qed.

Lemma counts_upward_bind {A B} (m : Transform A) (f : A -> Transform B) :
  counts_upward m -> (forall a, counts_upward (f a)) -> counts_upward (m ≫= f).
Proof.
  intros Hm Hf st b st'. unfold mbind, Transform_bind.
  destruct (m st) as [[a st1]|why] eqn:Hrun; [|discriminate].
  intros Hrun'. specialize (Hm _ _ _ Hrun). specialize (Hf _ _ _ _ Hrun'). lia.
Qed.

Lemma counts_upward_push_back c : counts_upward (push_back c).
Proof. intros st a st' [= _ <-]. simpl. lia. Qed.

Lemma counts_upward_arg_of e i : counts_upward (arg_of e i).
Proof.
  intros st a st'. unfold arg_of. destruct (arg e i); [|discriminate].
  intros [= _ <-]. lia.
Qed.

Lemma counts_upward_epi_var parent label : counts_upward (epi_var parent label).
Proof. intros st a st' [= _ <-]. simpl. lia. Qed.

Lemma counts_upward_scalar_epi_var parent label :
  counts_upward (scalar_epi_var parent label).
Proof. intros st a st' [= _ <-]. simpl. lia. Qed.

Create HintDb upward.
#[local] Hint Resolve counts_upward_ret counts_upward_abort counts_upward_push_back
  counts_upward_arg_of counts_upward_epi_var counts_upward_scalar_epi_var
  : upward.

Ltac upward_step :=
  repeat first
    [ apply counts_upward_bind; [|intros ?]
    | solve [auto with upward] ].

Lemma counts_upward_kTransforms t f expr :
  kTransforms t = Some f -> counts_upward (f expr).
Proof.
  destruct t; intros [= <-].
  - unfold transform_abs. upward_step.
  - unfold transform_p_norm.
    destruct (attr_ptr expr); auto with upward.
    destruct (p =? 1); auto with upward.
    unfold transform_abs. upward_step.
  - unfold transform_quad_over_lin. upward_step.
Qed.

Lemma counts_upward_transform_expression e :
  counts_upward (transform_expression e).
Proof.
  induction e as [t args attr IH] using Expression_ind'.
  rewrite transform_expression_unfold.
  apply counts_upward_bind.
  - induction IH as [|a args Ha _ IHargs]; cbn [transform_args].
    + auto with upward.
    + upward_step; assumption.
  - intros linear_args.
    destruct (kTransforms t) as [f|] eqn:Hf.
    + now apply (counts_upward_kTransforms t).
    + auto with upward.
Qed.

(** *** The registered rewrites *)

Ltac run_rewrite :=
  simpl;
  unfold transform_p_norm, transform_abs, transform_quad_over_lin,
         arg_of, arg, epi_var, scalar_epi_var, push_back, abort,
         mbind, mret, Transform_bind, Transform_ret;
  simpl.

(** C6: [transform_expression] on an [ABS] node, once its argument is
    transformed to [x], mints exactly one epigraph variable [t], of the shape
    of the [ABS] expression and with the identifier the minter had not yet
    handed out, appends to the accumulator exactly [x <= t] and then
    [-x <= t], and returns [t]. *)
Theorem transform_expression_abs a attr st x st1 :
  transform_expression a st = Ok (x, st1) ->
  let expr := Expr ABS [x] attr in
  let t := var (size expr).1 (size expr).2 (next_var_id st1) in
  transform_expression (Expr ABS [a] attr) st
  = Ok (t, {| next_var_id := next_var_id st1 + 1;
              emitted := emitted st1 ++ [leq x t; leq (neg x) t] |}).
Proof.
  intros Ha expr t.
  rewrite transform_expression_unfold. simpl.
  unfold mbind, Transform_bind. rewrite Ha.
  run_rewrite. now rewrite <- app_assoc.
Qed.

(** C7: [transform_expression] on a [QUAD_OVER_LIN] node, once its children
    are transformed to [x] and [y], mints exactly one scalar epigraph
    variable [t], appends exactly [SOC(vstack(y - t, 2 x), y + t)] and then
    [0 <= y], and returns [t]. *)
Theorem transform_expression_quad_over_lin a b attr st x st1 y st2 :
  transform_expression a st = Ok (x, st1) ->
  transform_expression b st1 = Ok (y, st2) ->
  let t := var 1 1 (next_var_id st2) in
  transform_expression (Expr QUAD_OVER_LIN [a; b] attr) st
  = Ok (t, {| next_var_id := next_var_id st2 + 1;
              emitted := emitted st2
                ++ [soc (vstack [add y (neg t); mul (constant 2) x]) (add y t);
                    leq (constant 0) y] |}).
Proof.
  intros Ha Hb t.
  rewrite transform_expression_unfold. simpl.
  unfold mbind, Transform_bind. rewrite Ha, Hb.
  run_rewrite. now rewrite <- app_assoc.
Qed.

(** What [transform_p_norm] does: on a [P_NORM] node the transformer fails
    fatally whenever [p <> 1] (whatever the children); when [p = 1], once
    the argument is transformed to [x], it calls [transform_abs] on the
    [P_NORM] node, which mints one variable [t], of the shape of that node,
    appends [x <= t] and [-x <= t], and it returns [SUM_ENTRIES(t)]. *)
Lemma transform_expression_p_norm p args st :
  (p <> 1 ->
   exists why,
     transform_expression (Expr P_NORM args (PNormAttributes p)) st = Fatal why)
  /\
  (p = 1 ->
   forall a x st1,
     args = [a] ->
     transform_expression a st = Ok (x, st1) ->
     let expr := Expr P_NORM [x] (PNormAttributes p) in
     let t := var (size expr).1 (size expr).2 (next_var_id st1) in
     transform_expression (Expr P_NORM args (PNormAttributes p)) st
     = Ok (sum_entries t,
           {| next_var_id := next_var_id st1 + 1;
              emitted := emitted st1 ++ [leq x t; leq (neg x) t] |})).
Proof.
  split.
  - intros Hp.
    rewrite transform_expression_unfold.
    unfold mbind, Transform_bind.
    destruct (transform_args args st) as [[linear_args st']|why];
      [|now exists why].
    run_rewrite.
    destruct (Z.eqb_spec p 1) as [->|_]; [contradiction|].
    now exists CheckEqFailed.
  - intros -> a x st1 -> Ha expr t.
    rewrite transform_expression_unfold. simpl.
    unfold mbind, Transform_bind. rewrite Ha.
    run_rewrite. now rewrite <- app_assoc.
Qed.

(** C9: on a tree with no [ABS], [P_NORM] or [QUAD_OVER_LIN] node,
    [transform_expression(e, [])] returns [e] itself, node for node, and the
    constraint list is still empty (nor is any variable minted). *)
Theorem transform_expression_affine_unchanged e n :
  no_registered_atom e = true ->
  transform_expression e {| next_var_id := n; emitted := [] |}
  = Ok (e, {| next_var_id := n; emitted := [] |}).
Proof. intros Hno. now apply transform_expression_identity. Qed.

(** *** The order of the output *)

Lemma transform_constraints_in_order rest n acc :
  transform_constraints rest {| next_var_id := n; emitted := acc |}
  = match constraints_in_order rest n with
    | Ok (out, n') => Ok (tt, {| next_var_id := n'; emitted := acc ++ out |})
    | Fatal why => Fatal why
    end.
Proof.
  revert n acc.
  induction rest as [|c rest IH]; intros n acc; simpl.
  - now rewrite app_nil_r.
  - unfold mbind, Transform_bind.
    rewrite appends_only_transform_expression.
    destruct (transform_expression c _) as [[c' [n1 em1]]|why]; simpl;
      [|reflexivity].
    rewrite IH.
    destruct (constraints_in_order rest n1) as [[out n']|why]; [|reflexivity].
    now rewrite <- !app_assoc.
Qed.

(** C10: [transform_expression] only appends to the accumulator it is given
    (what was there stays, in place and in order, and does not influence the
    run), and [LinearConeTransform::transform] lays its constraint list out
    as: what the objective emits, then for each original constraint in input
    order what it emits followed by the transformed constraint itself. *)
Theorem transform_appends_in_order :
  (forall e, appends_only (transform_expression e))
  /\
  (forall problem first_id,
     transform problem first_id = transform_in_order problem first_id).
Proof.
  split; [exact appends_only_transform_expression|].
  intros problem first_id.
  unfold transform, transform_in_order, mbind, Transform_bind.
  destruct (transform_expression (objective problem) _)
    as [[linear_objective [n1 em1]]|why]; [|reflexivity].
  rewrite transform_constraints_in_order. simpl.
  destruct (constraints_in_order (constraints problem) n1) as [[out n']|why];
    reflexivity.
Qed.

End LinearConeTransformFacts.

(** * Further properties *)

(** ** [multiply_by_constant], entry by entry *)

(** One step of the loop: the entry of [iter]'s key becomes what it was plus
    [lhs * iter], every other entry stays. *)
Lemma accumulate_lookup lhs (result result' : CoeffMap) k M :
  accumulate lhs result (k, M) = Ok result' ->
  m_cols lhs = m_rows M
  /\ (forall k', k' <> k -> result' !! k' = result !! k')
  /\ exists M',
       result' !! k = Some M'
       /\ m_rows M' = m_rows lhs /\ m_cols M' = m_cols M
       /\ forall i j,
            coeff M' i j = coeff (at_key result k) i j + coeff (mat_mul lhs M) i j.
Proof.
  unfold accumulate. cbn [fst snd].
  destruct (Z.eqb_spec (m_cols lhs) (m_rows M)) as [Hcheck|]; [|discriminate].
  unfold at_key.
  destruct (result !! k) as [old|] eqn:Hold.
  - unfold mat_add_assign.
    destruct (Z.eqb_spec (m_rows old) (m_rows (mat_mul lhs M))) as [Hr|];
      [|discriminate].
    destruct (Z.eqb_spec (m_cols old) (m_cols (mat_mul lhs M))) as [Hc|];
      [|discriminate].
    cbn [m_rows m_cols mat_mul andb] in Hr, Hc |- *.
    cbn [mbind Result_bind]. intros [= <-].
    split; [exact Hcheck|]. split.
    + intros k' Hne. now rewrite lookup_insert_ne.
    + eexists. rewrite lookup_insert_eq. split; [reflexivity|].
      cbn [m_rows m_cols default]. repeat split; try assumption.
      intros i j. unfold coeff. cbn [m_entries]. now rewrite map_app, sumZ_app.
  - intros [= <-].
    split; [exact Hcheck|]. split.
    + intros k' Hne. now rewrite lookup_insert_ne.
    + eexists. rewrite lookup_insert_eq. split; [reflexivity|].
      split; [reflexivity|]. split; [reflexivity|].
      intros i j. cbn [default]. unfold coeff at 2. cbn. lia.
Qed.

Lemma foldlM_accumulate_lookup lhs (l : list (Z * SparseMatrix)) :
  NoDup l.*1 ->
  forall result result' : CoeffMap,
    foldlM (accumulate lhs) l result = Ok result' ->
    Forall (fun it : Z * SparseMatrix => m_cols lhs = m_rows it.2) l
    /\ forall k,
         match (list_to_map l : CoeffMap) !! k with
         | None => result' !! k = result !! k
         | Some M =>
             exists M',
               result' !! k = Some M'
               /\ m_rows M' = m_rows lhs /\ m_cols M' = m_cols M
               /\ forall i j,
                    coeff M' i j
                    = coeff (at_key result k) i j + coeff (mat_mul lhs M) i j
         end.
Proof.
  induction l as [|[k0 M0] l IH]; intros Hnd result result'; cbn [foldlM].
  - intros [= <-]. split; [constructor|]. intros k.
    rewrite list_to_map_nil, lookup_empty. reflexivity.
  - rewrite fmap_cons in Hnd. apply NoDup_cons in Hnd as [Hk0 Hnd].
    cbn [fst] in Hk0.
    destruct (accumulate lhs result (k0, M0)) as [result1|] eqn:Hstep;
      [|discriminate].
    cbn [mbind Result_bind]. intros Hrest.
    apply accumulate_lookup in Hstep as (Hcheck & Hothers & M1 & HM1 & Hr1 & Hc1 & Hco1).
    destruct (IH Hnd _ _ Hrest) as [Hall Hlook].
    split; [now constructor|].
    intros k. cbn [list_to_map foldr fst snd].
    destruct (decide (k = k0)) as [->|Hne].
    + rewrite lookup_insert_eq.
      specialize (Hlook k0).
      rewrite (not_elem_of_list_to_map_1 _ _ Hk0) in Hlook.
      exists M1. rewrite Hlook. auto.
    + rewrite lookup_insert_ne by congruence.
      specialize (Hlook k).
      destruct (list_to_map l !! k) as [M|].
      * destruct Hlook as (M' & HM' & Hr & Hc & Hco).
        exists M'. repeat split; try assumption.
        intros i j. rewrite Hco. unfold at_key. now rewrite Hothers.
      * rewrite Hlook. now apply Hothers.
Qed.

Lemma list_to_map_items (m : CoeffMap) : list_to_map (items m) = m.
Proof.
  rewrite <- (list_to_map_to_list m) at 2.
  apply list_to_map_proper; [apply NoDup_items_keys|apply items_Permutation].
Qed.

(** X4: When multiply_by_constant(lhs, rhs, result) returns, every key absent
    from rhs has in result what it had before, and every key k of rhs
    holds a matrix of rows(lhs) rows and cols(rhs[k]) columns whose every
    entry is the entry result had at k (zero if k was absent) plus the
    entry of lhs*rhs[k]: result += lhs*rhs. *)
Theorem multiply_by_constant_adds lhs (rhs result result' : CoeffMap) :
  multiply_by_constant lhs rhs result = Ok result' ->
  forall k,
    match rhs !! k with
    | None => result' !! k = result !! k
    | Some M =>
        exists M',
          result' !! k = Some M'
          /\ m_rows M' = m_rows lhs /\ m_cols M' = m_cols M
          /\ forall i j,
               coeff M' i j
               = coeff (at_key result k) i j + coeff (mat_mul lhs M) i j
    end.
Proof.
  intros Hrun k.
  apply foldlM_accumulate_lookup in Hrun as [_ Hlook]; [|apply NoDup_items_keys].
  specialize (Hlook k). now rewrite list_to_map_items in Hlook.
Qed.

(** X5: multiply_by_constant(lhs, rhs, result) returns only if every matrix of
    rhs has as many rows as lhs has columns; otherwise the run aborts
    (CHECK_EQ). *)
Theorem multiply_by_constant_checks lhs (rhs result result' : CoeffMap) :
  multiply_by_constant lhs rhs result = Ok result' ->
  map_Forall (fun _ M => m_cols lhs = m_rows M) rhs.
Proof.
  intros Hrun.
  apply foldlM_accumulate_lookup in Hrun as [Hall _]; [|apply NoDup_items_keys].
  rewrite items_Permutation in Hall.
  apply map_Forall_to_list.
  eapply Forall_impl; [exact Hall|]. now intros [k M].
Qed.

Lemma multiply_by_constant_dom lhs (rhs result result' : CoeffMap) :
  multiply_by_constant lhs rhs result = Ok result' ->
  dom result' = dom result ∪ dom rhs.
Proof.
  intros Hrun.
  apply foldlM_accumulate_lookup in Hrun as [_ Hlook]; [|apply NoDup_items_keys].
  rewrite list_to_map_items in Hlook.
  apply set_eq. intros k. rewrite elem_of_union, !elem_of_dom.
  specialize (Hlook k).
  destruct (rhs !! k) as [M|] eqn:HM.
  - destruct Hlook as (M' & -> & _). split; [right|]; eauto.
  - rewrite Hlook. split; [now left|]. intros [?|[? [=]]]. assumption.
Qed.

Section CoeffMapFacts.
Context `{Oracle}.

(** X3: is_constant(coeffs) holds if and only if coeffs is a map with the
    single key kConstCoefficientId; in particular the empty map is not
    constant. *)
Theorem is_constant_iff (coeffs : CoeffMap) :
  is_constant coeffs = true
  <-> exists M, coeffs = {[ kConstCoefficientId := M ]}.
Proof.
  unfold is_constant. rewrite andb_true_iff, !bool_decide_eq_true. split.
  - intros [[M HM] Hsize]. exists M.
    assert (Hrest : delete kConstCoefficientId coeffs = ∅).
    { apply map_size_empty_inv.
      rewrite map_size_delete_Some by eauto. now rewrite Hsize. }
    rewrite <- (insert_delete_id coeffs kConstCoefficientId M HM).
    now rewrite Hrest.
  - intros [M ->]. split.
    + exists M. apply lookup_singleton_eq.
    + apply map_size_singleton.
Qed.

Lemma accumulate_args_dom (keys : gset Z) f_coeffs rest i (coeffs result : CoeffMap) :
  Forall (fun e => forall c, get_coefficients e = Ok c -> dom c ⊆ keys) rest ->
  dom coeffs ⊆ keys ->
  accumulate_args f_coeffs rest i coeffs = Ok result ->
  dom result ⊆ keys.
Proof.
  intros Hrest. revert i coeffs.
  induction Hrest as [|a rest Ha _ IH]; intros i coeffs Hdom;
    cbn [accumulate_args].
  - now intros [= <-].
  - destruct (get_coefficients a) as [arg_coeffs|]; [|discriminate].
    cbn [mbind Result_bind].
    destruct (f_at f_coeffs i) as [F|]; [|discriminate].
    cbn [mbind Result_bind].
    destruct (multiply_by_constant F arg_coeffs coeffs) as [coeffs'|] eqn:Hmul;
      [|discriminate].
    cbn [mbind Result_bind].
    apply IH.
    rewrite (multiply_by_constant_dom _ _ _ _ Hmul).
    specialize (Ha _ eq_refl). set_solver.
Qed.

(** X8: Every key of the CoeffMap get_coefficients returns is the identifier
    of a VAR node of the tree (one not below a CONST or VAR node, which
    are not descended into) or kConstCoefficientId. *)
Lemma get_coefficients_dom e coeffs :
  get_coefficients e = Ok coeffs ->
  dom coeffs ⊆ var_ids e ∪ {[ kConstCoefficientId ]}.
Proof.
  revert coeffs.
  induction e as [t args attr IH] using Expression_ind'.
  intros coeffs Hrun.
  destruct (decide (t = CONST)) as [->|Hconst].
  { cbn [get_coefficients] in Hrun. destruct attr; try discriminate.
    injection Hrun as <-. rewrite dom_singleton_L. set_solver. }
  destruct (decide (t = VAR)) as [->|Hvar].
  { cbn [get_coefficients] in Hrun. destruct attr; try discriminate.
    injection Hrun as <-. rewrite dom_singleton_L. cbn [var_ids]. set_solver. }
  assert (Hids : var_ids (Expr t args attr) = ⋃ (map var_ids args))
    by (destruct t; try contradiction; reflexivity).
  rewrite Hids.
  assert (Hargs : Forall (fun e => forall c, get_coefficients e = Ok c ->
                    dom c ⊆ ⋃ (map var_ids args) ∪ {[ kConstCoefficientId ]}) args).
  { rewrite Forall_forall in IH |- *. intros a Ha c Hc.
    specialize (IH a Ha c Hc).
    assert (var_ids a ⊆ ⋃ (map var_ids args)).
    { intros x Hx. apply elem_of_union_list. exists (var_ids a). split; [|exact Hx].
      apply list_elem_of_In, in_map, list_elem_of_In, Ha. }
    set_solver. }
  destruct (decide (t = MUL)) as [->|Hmul].
  - destruct args as [|arg0 [|arg1 [|]]]; try discriminate Hrun.
    rewrite get_coefficients_mul_unfold in Hrun.
    apply Forall_cons in Hargs as [H0 Hargs]. apply Forall_cons in Hargs as [H1 _].
    destruct (get_coefficients arg0) as [lhs|]; [|discriminate].
    destruct (get_coefficients arg1) as [rhs|]; [|discriminate].
    cbn [mbind Result_bind] in Hrun.
    specialize (H0 _ eq_refl). specialize (H1 _ eq_refl).
    destruct (is_constant lhs); [|destruct (is_constant rhs); [|discriminate]];
      match type of Hrun with
      | (?m ≫= _) = _ => destruct m as [f_coeffs|]; [|discriminate]
      end;
      cbn [mbind Result_bind] in Hrun;
      destruct (f_at f_coeffs 0) as [F|]; try discriminate;
      cbn [mbind Result_bind] in Hrun;
      apply multiply_by_constant_dom in Hrun; rewrite Hrun, dom_empty_L;
      set_solver.
  - rewrite get_coefficients_unfold_other in Hrun by assumption.
    destruct (kCoefficientFunctions t) as [f|]; [|discriminate].
    destruct (f _) as [f_coeffs|]; [|discriminate].
    cbn [mbind Result_bind] in Hrun.
    eapply accumulate_args_dom; [exact Hargs| |exact Hrun].
    rewrite dom_empty_L. set_solver.
Qed.

Lemma accumulate_args_unsupported f_coeffs rest i (coeffs : CoeffMap) :
  Forall (fun e => reaches_unsupported e = true ->
                   is_fatal (get_coefficients e) = true) rest ->
  existsb reaches_unsupported rest = true ->
  is_fatal (accumulate_args f_coeffs rest i coeffs) = true.
Proof.
  intros Hrest. revert i coeffs.
  induction Hrest as [|a rest Ha _ IH]; intros i coeffs Hex;
    cbn [accumulate_args existsb] in *; [discriminate|].
  destruct (get_coefficients a) as [arg_coeffs|] eqn:Hrun;
    cbn [mbind Result_bind]; [|reflexivity].
  destruct (reaches_unsupported a); [now specialize (Ha eq_refl)|].
  cbn [orb] in Hex.
  destruct (f_at f_coeffs i) as [F|]; cbn [mbind Result_bind]; [|reflexivity].
  destruct (multiply_by_constant F arg_coeffs coeffs) as [coeffs'|];
    cbn [mbind Result_bind]; [|reflexivity].
  now apply IH.
Qed.

(** X9: get_coefficients aborts on every tree in which the traversal reaches a
    node whose type is neither CONST, VAR, MUL nor in
    kCoefficientFunctions (ABS, P_NORM, QUAD_OVER_LIN, EQ, LEQ, SOC),
    however deep the node sits: it never returns a CoeffMap for such a
    tree. *)
Lemma get_coefficients_unsupported e :
  reaches_unsupported e = true -> is_fatal (get_coefficients e) = true.
Proof.
  induction e as [t args attr IH] using Expression_ind'.
  intros Hreach.
  destruct t; cbn [reaches_unsupported] in Hreach; try discriminate;
    try reflexivity;
    try (rewrite get_coefficients_unfold_other by discriminate;
         cbn [kCoefficientFunctions];
         match goal with
         | |- is_fatal (?m ≫= _) = true =>
             destruct m as [f_coeffs|]; cbn [mbind Result_bind]; [|reflexivity]
         end;
         now apply accumulate_args_unsupported).
  (* MUL *)
  destruct args as [|arg0 [|arg1 [|]]]; try reflexivity.
  rewrite get_coefficients_mul_unfold.
  apply Forall_cons in IH as [H0 IH]. apply Forall_cons in IH as [H1 _].
  cbn [existsb] in Hreach.
  destruct (get_coefficients arg0) as [lhs|] eqn:Hlhs;
    cbn [mbind Result_bind]; [|reflexivity].
  destruct (reaches_unsupported arg0); [now specialize (H0 eq_refl)|].
  cbn [orb] in Hreach. rewrite orb_false_r in Hreach.
  specialize (H1 Hreach).
  destruct (get_coefficients arg1); [discriminate|reflexivity].
Qed.

End CoeffMapFacts.

(** ** What the operators do to a vector *)

Lemma map_vec_at_seqZ (x : list Z) :
  map (vec_at x) (seqZ 0 (Z.of_nat (length x))) = x.
Proof.
  apply list_eq. intros k.
  change (map (vec_at x) (seqZ 0 (Z.of_nat (length x))))
    with (vec_at x <$> seqZ 0 (Z.of_nat (length x))).
  rewrite list_lookup_fmap.
  destruct (x !! k) as [v|] eqn:Hk.
  - assert (k < length x)%nat by (eapply lookup_lt_Some; eauto).
    rewrite lookup_seqZ_lt by lia. cbn. f_equal.
    unfold vec_at. destruct (Z.ltb_spec (0 + Z.of_nat k) 0); [lia|].
    rewrite nth_lookup. replace (Z.to_nat (0 + Z.of_nat k)) with k by lia.
    now rewrite Hk.
  - assert (length x <= k)%nat by (now apply lookup_ge_None).
    now rewrite lookup_seqZ_ge by lia.
Qed.

Lemma map_ext_seqZ (f g : Z -> Z) n :
  (forall k, 0 <= k < n -> f k = g k) -> map f (seqZ 0 n) = map g (seqZ 0 n).
Proof.
  intros Hfg. apply map_ext_in. intros k Hk.
  apply list_elem_of_In, elem_of_seqZ in Hk. apply Hfg. lia.
Qed.

Section OperatorFacts.
Context `{Oracle}.

(** X10: The operator get_transpose_coefficients builds for a node of shape
    (r, c), applied after the one for a node of shape (c, r), gives back
    every vector of length r*c: transposing twice is the identity. *)
Theorem get_transpose_coefficients_involution expr1 expr2 r c (x : list Z) :
  size expr1 = (c, r) -> size expr2 = (r, c) ->
  0 <= r -> 0 <= c ->
  length x = Z.to_nat (r * c) ->
  exists T1 T2,
    get_transpose_coefficients expr1 = [T1]
    /\ get_transpose_coefficients expr2 = [T2]
    /\ mat_vec T2 (mat_vec T1 x) = x.
Proof.
  intros Hs1 Hs2 Hr Hc Hlen.
  unfold get_transpose_coefficients. rewrite Hs1, Hs2. cbn [fst snd].
  eexists. eexists. split; [reflexivity|]. split; [reflexivity|].
  unfold mat_vec at 1. cbn [sparse_matrix m_rows].
  rewrite <- (map_vec_at_seqZ x) at 2. rewrite Hlen.
  replace (Z.of_nat (Z.to_nat (r * c))) with (r * c) by nia.
  apply map_ext_seqZ. intros k Hk.
  assert (Hrpos : 0 < r) by nia.
  pose proof (Z.div_mod k r ltac:(lia)) as Hdm.
  pose proof (Z.mod_pos_bound k r Hrpos) as Hmod.
  assert (Hdiv : 0 <= k / r < c).
  { split; [apply Z.div_pos; lia|]. apply Z.div_lt_upper_bound; lia. }
  set (i := k / r) in *. set (j := k mod r) in *.
  replace k with (i * r + j) by lia.
  unfold row_dot, sparse_matrix. cbn [m_entries].
  rewrite (transpose_row_dot c r _ i j) by lia.
  assert (Hout : 0 <= j * c + i < c * r).
  { assert (j * c <= (r - 1) * c) by nia. nia. }
  unfold mat_vec. cbn [m_rows].
  rewrite vec_at_map_seqZ by exact Hout.
  unfold row_dot. cbn [m_entries].
  now rewrite (transpose_row_dot r c x j i) by lia.
Qed.

(** *** The diagonal operators *)

Lemma diag_vec_row_dot n (x : list Z) i j :
  0 <= i < n -> 0 <= j < n ->
  sumZ (map (fun t : Triplet =>
               match t with
               | (row, col, v) => if row =? j * n + i then v * vec_at x col else 0
               end)
            (map (fun i' => (i' * n + i', i', 1)) (seqZ 0 n)))
  = if i =? j then vec_at x i else 0.
Proof.
  intros Hi Hj. rewrite map_map.
  destruct (Z.eqb_spec i j) as [->|Hne].
  - rewrite (sumZ_map_single _ _ j).
    + rewrite Z.eqb_refl. lia.
    + apply NoDup_seqZ.
    + apply elem_of_seqZ. lia.
    + intros i' Hi' Hne. apply elem_of_seqZ in Hi'.
      destruct (Z.eqb_spec (i' * n + i') (j * n + j)); [|reflexivity].
      exfalso. apply Hne.
      assert (i' = j \/ i' <= j - 1 \/ j + 1 <= i') as [->|[?|?]] by lia; nia.
  - apply sumZ_map_zero. intros i' Hi'. apply elem_of_seqZ in Hi'.
    destruct (Z.eqb_spec (i' * n + i') (j * n + i)); [|reflexivity].
    exfalso. apply Hne.
    assert (i' = j \/ i' <= j - 1 \/ j + 1 <= i') as [->|[?|?]] by lia; nia.
Qed.

Lemma diag_mat_row_dot n (y : list Z) i :
  0 <= i < n ->
  sumZ (map (fun t : Triplet =>
               match t with
               | (row, col, v) => if row =? i then v * vec_at y col else 0
               end)
            (map (fun i' => (i', i' * n + i', 1)) (seqZ 0 n)))
  = vec_at y (i * n + i).
Proof.
  intros Hi. rewrite map_map.
  rewrite (sumZ_map_single _ _ i).
  - rewrite Z.eqb_refl. lia.
  - apply NoDup_seqZ.
  - apply elem_of_seqZ. lia.
  - intros i' Hi' Hne. destruct (Z.eqb_spec i' i); [contradiction|reflexivity].
Qed.

(** X11: For a DIAG_VEC node with n rows, get_diag_vec_coefficients returns
    one (n*n, n) matrix D, and D*x, read as a column-major (n, n) matrix,
    has x_i at entry (i, i) and 0 at every entry off the diagonal. *)
Theorem get_diag_vec_coefficients_diagonal expr n (x : list Z) :
  (size expr).1 = n ->
  exists D,
    get_diag_vec_coefficients expr = [D]
    /\ m_rows D = n * n /\ m_cols D = n
    /\ length (mat_vec D x) = Z.to_nat (n * n)
    /\ forall i j,
         0 <= i < n -> 0 <= j < n ->
         vec_at (mat_vec D x) (j * n + i) = if i =? j then vec_at x i else 0.
Proof.
  intros Hn. unfold get_diag_vec_coefficients. rewrite Hn.
  eexists. split; [reflexivity|].
  split; [reflexivity|]. split; [reflexivity|]. split.
  - unfold mat_vec. cbn [sparse_matrix m_rows].
    now rewrite length_map, length_seqZ.
  - intros i j Hi Hj.
    assert (0 <= j * n + i < n * n).
    { assert (j * n <= (n - 1) * n) by nia. nia. }
    unfold mat_vec. cbn [sparse_matrix m_rows].
    rewrite vec_at_map_seqZ by assumption.
    unfold row_dot, sparse_matrix. cbn [m_entries].
    now apply diag_vec_row_dot.
Qed.

(** X12: For a DIAG_MAT node with n rows, get_diag_mat_coefficients returns
    one (n, n*n) matrix D, and D*y is the vector of the entries y[i*n +
    i], i in [0, n): the diagonal of the column-major (n, n) matrix y. *)
Theorem get_diag_mat_coefficients_reads_diagonal expr n (y : list Z) :
  (size expr).1 = n ->
  exists D,
    get_diag_mat_coefficients expr = [D]
    /\ m_rows D = n /\ m_cols D = n * n
    /\ mat_vec D y = map (fun i => vec_at y (i * n + i)) (seqZ 0 n).
Proof.
  intros Hn. unfold get_diag_mat_coefficients. rewrite Hn.
  eexists. split; [reflexivity|].
  split; [reflexivity|]. split; [reflexivity|].
  unfold mat_vec. cbn [sparse_matrix m_rows].
  apply map_ext_seqZ. intros i Hi.
  unfold row_dot, sparse_matrix. cbn [m_entries].
  now apply diag_mat_row_dot.
Qed.

(** X13: The DIAG_MAT operator for n rows applied after the DIAG_VEC operator
    for n rows gives back every vector of length n. *)
Theorem diag_mat_of_diag_vec expr_vec expr_mat n (x : list Z) :
  (size expr_vec).1 = n -> (size expr_mat).1 = n ->
  length x = Z.to_nat n ->
  exists Dv Dm,
    get_diag_vec_coefficients expr_vec = [Dv]
    /\ get_diag_mat_coefficients expr_mat = [Dm]
    /\ mat_vec Dm (mat_vec Dv x) = x.
Proof.
  intros Hv Hm Hlen.
  unfold get_diag_vec_coefficients, get_diag_mat_coefficients. rewrite Hv, Hm.
  eexists. eexists. split; [reflexivity|]. split; [reflexivity|].
  unfold mat_vec at 1. cbn [sparse_matrix m_rows].
  destruct (Z.le_gt_cases n 0) as [Hn|Hn].
  { rewrite seqZ_nil by lia. destruct x; [reflexivity|]. cbn [length] in Hlen. lia. }
  rewrite <- (map_vec_at_seqZ x) at 2. rewrite Hlen.
  replace (Z.of_nat (Z.to_nat n)) with n by lia.
  apply map_ext_seqZ. intros i Hi.
  unfold row_dot at 1, sparse_matrix. cbn [m_entries].
  rewrite diag_mat_row_dot by lia.
  assert (0 <= i * n + i < n * n).
  { assert (i * n <= (n - 1) * n) by nia. nia. }
  unfold mat_vec. cbn [m_rows].
  rewrite vec_at_map_seqZ by assumption.
  unfold row_dot. cbn [m_entries].
  rewrite diag_vec_row_dot by lia.
  now rewrite Z.eqb_refl.
Qed.

(** *** Stacking *)

Lemma stack_row_dot (x : list Z) rows cols column_offset offset i j :
  0 <= i < rows -> 0 <= j < cols -> rows <= column_offset ->
  sumZ (map (fun t : Triplet =>
               match t with
               | (row, col, v) =>
                   if row =? i + j * column_offset + offset
                   then v * vec_at x col else 0
               end)
            (flat_map (fun i' =>
               map (fun j' => (i' + j' * column_offset + offset, i' + j' * rows, 1))
                   (seqZ 0 cols))
               (seqZ 0 rows)))
  = vec_at x (i + j * rows).
Proof.
  intros Hi Hj Hfit.
  rewrite sumZ_flat_map, (sumZ_map_single _ _ i).
  - rewrite map_map, (sumZ_map_single _ _ j).
    + rewrite Z.eqb_refl. lia.
    + apply NoDup_seqZ.
    + apply elem_of_seqZ. lia.
    + intros j' Hj' Hne.
      destruct (Z.eqb_spec (i + j' * column_offset + offset)
                           (i + j * column_offset + offset)); [|reflexivity].
      exfalso. apply Hne. nia.
  - apply NoDup_seqZ.
  - apply elem_of_seqZ. lia.
  - intros i' Hi' Hne. apply elem_of_seqZ in Hi'.
    rewrite map_map. apply sumZ_map_zero.
    intros j' Hj'. apply elem_of_seqZ in Hj'.
    destruct (Z.eqb_spec (i' + j' * column_offset + offset)
                         (i + j * column_offset + offset)) as [Heq|];
      [|reflexivity].
    exfalso. apply Hne.
    assert (j' = j \/ j' <= j - 1 \/ j + 1 <= j') as [->|[?|?]] by lia; nia.
Qed.

Lemma stack_loop_lookup expr vertical (rest : list Expression) offset (k : nat) arg :
  rest !! k = Some arg ->
  stack_loop expr vertical rest offset !! k
  = stack_loop expr vertical [arg]
      (offset + sumZ (map (fun a => if vertical then (size a).1 else dim a)
                          (take k rest))) !! 0%nat.
Proof.
  revert offset k.
  induction rest as [|a rest IH]; intros offset k Hk; [discriminate|].
  destruct k as [|k].
  - injection Hk as ->. cbn [take map sumZ]. now rewrite Z.add_0_r.
  - cbn [lookup list_lookup] in Hk.
    cbn [stack_loop]. rewrite lookup_cons_ne_0 by lia. cbn [pred].
    rewrite (IH _ _ Hk). cbn [take map sumZ]. now rewrite Z.add_assoc.
Qed.

(** X14: For the k-th argument of a stack, get_stack_coefficients returns at
    position k a matrix of shape (dim(expr), dim(arg)) that copies entry
    (i, j) of the argument to position i + j*column_offset + offset of the
    result, where for VSTACK column_offset is the row count of the result
    and offset the summed row counts of the arguments before it, and for
    HSTACK column_offset is the row count of the argument and offset the
    summed dimensions of the arguments before it (provided the argument
    has no more rows than column_offset and the position lies inside the
    result). *)
Theorem get_stack_coefficients_places expr (vertical : bool) (k : nat) arg (x : list Z) :
  args expr !! k = Some arg ->
  let column_offset := if vertical then (size expr).1 else (size arg).1 in
  let offset :=
    sumZ (map (fun a => if vertical then (size a).1 else dim a)
              (take k (args expr))) in
  (size arg).1 <= column_offset ->
  exists F,
    get_stack_coefficients expr vertical !! k = Some F
    /\ m_rows F = dim expr /\ m_cols F = dim arg
    /\ forall i j,
         0 <= i < (size arg).1 -> 0 <= j < (size arg).2 ->
         0 <= i + j * column_offset + offset < dim expr ->
         vec_at (mat_vec F x) (i + j * column_offset + offset)
         = vec_at x (i + j * (size arg).1).
Proof.
  intros Hk column_offset offset Hfit.
  unfold get_stack_coefficients.
  rewrite (stack_loop_lookup _ _ _ _ _ _ Hk). rewrite Z.add_0_l. fold offset.
  cbn [stack_loop lookup list_lookup]. fold column_offset.
  eexists. split; [reflexivity|].
  split; [reflexivity|]. split; [reflexivity|].
  intros i j Hi Hj Hin.
  unfold mat_vec. cbn [sparse_matrix m_rows].
  rewrite vec_at_map_seqZ by exact Hin.
  unfold row_dot, sparse_matrix. cbn [m_entries].
  now apply stack_row_dot.
Qed.

(** *** Slices *)

Lemma slice_walk_in_range fuel pos stop step n l :
  slice_walk fuel pos stop step n = Ok l ->
  Forall (fun p => 0 <= p < n) l.
Proof.
  revert pos l.
  induction fuel as [|fuel IH]; intros pos l; cbn [slice_walk].
  - destruct ((pos <? 0) || (n <=? pos)); [|discriminate].
    intros [= <-]. constructor.
  - destruct (Z.ltb_spec pos 0), (Z.leb_spec n pos); cbn [orb];
      try (intros [= <-]; constructor).
    destruct (_ || _).
    + intros [= <-]. repeat constructor; lia.
    + destruct (slice_walk fuel (pos + step) stop step n) as [rest|] eqn:Hrest;
        [|discriminate].
      cbn [mbind Result_bind]. intros [= <-].
      constructor; [lia|]. now apply (IH _ _ Hrest).
Qed.

Lemma slice_walk_forward_positions fuel pos stop step n l :
  0 < step ->
  slice_walk fuel pos stop step n = Ok l ->
  StronglySorted Z.lt l
  /\ forall p,
       p ∈ l
       <-> 0 <= pos < n
           /\ exists k, 0 <= k /\ p = pos + k * step /\ p < n
                        /\ (k = 0 \/ p < stop).
Proof.
  intros Hstep. revert pos l.
  induction fuel as [|fuel IH]; intros pos l; cbn [slice_walk].
  - destruct (decide (0 <= pos < n)) as [Hin|Hout].
    + replace ((pos <? 0) || (n <=? pos)) with false by lia. discriminate.
    + replace ((pos <? 0) || (n <=? pos)) with true by lia.
      intros [= <-]. split; [constructor|]. intros p.
      split; [intros Hp; inversion Hp | intros [? _]; lia].
  - destruct (decide (0 <= pos < n)) as [Hin|Hout].
    2:{ replace ((pos <? 0) || (n <=? pos)) with true by lia.
        intros [= <-]. split; [constructor|]. intros p.
        split; [intros Hp; inversion Hp | intros [? _]; lia]. }
    replace ((pos <? 0) || (n <=? pos)) with false by lia.
    replace (0 <? step) with true by (symmetry; apply Z.ltb_lt; lia).
    replace (step <? 0) with false by (symmetry; apply Z.ltb_ge; lia).
    cbn [andb orb]. rewrite orb_false_r.
    destruct (Z.leb_spec stop (pos + step)) as [Hstop|Hstop].
    + intros [= <-]. split; [repeat constructor|].
      intros p. rewrite list_elem_of_singleton. split.
      * intros ->. split; [lia|]. exists 0. lia.
      * intros (_ & k & Hk & -> & Hn & [->|Hlt]); [lia|].
        assert (k = 0 \/ 1 <= k) as [->|?] by lia; [lia|nia].
    + destruct (slice_walk fuel (pos + step) stop step n) as [rest|] eqn:Hrest;
        [|discriminate].
      cbn [mbind Result_bind]. intros [= <-].
      destruct (IH _ _ Hrest) as [Hsorted Hmem].
      split.
      * constructor; [exact Hsorted|].
        apply Forall_forall. intros p Hp.
        apply Hmem in Hp as (_ & k & Hk & -> & _). nia.
      * intros p. rewrite elem_of_cons, Hmem. split.
        -- intros [->|(Hin' & k & Hk & -> & Hn & Hs)].
           ++ split; [lia|]. exists 0. lia.
           ++ split; [lia|]. exists (k + 1). split; [lia|].
              split; [lia|]. split; [lia|]. right.
              destruct Hs as [->|?]; lia.
        -- intros (_ & k & Hk & -> & Hn & Hs).
           destruct (Z.eq_dec k 0) as [->|Hk0]; [left; lia|].
           right. split; [nia|]. exists (k - 1).
           split; [lia|]. split; [lia|]. split; [lia|].
           right. destruct Hs; [lia|assumption].
Qed.

Lemma slice_walk_backward_positions fuel pos stop step n l :
  step < 0 ->
  slice_walk fuel pos stop step n = Ok l ->
  StronglySorted Z.gt l
  /\ forall p,
       p ∈ l
       <-> 0 <= pos < n
           /\ exists k, 0 <= k /\ p = pos + k * step /\ 0 <= p
                        /\ (k = 0 \/ stop <= p).
Proof.
  intros Hstep. revert pos l.
  induction fuel as [|fuel IH]; intros pos l; cbn [slice_walk].
  - destruct (decide (0 <= pos < n)) as [Hin|Hout].
    + replace ((pos <? 0) || (n <=? pos)) with false by lia. discriminate.
    + replace ((pos <? 0) || (n <=? pos)) with true by lia.
      intros [= <-]. split; [constructor|]. intros p.
      split; [intros Hp; inversion Hp | intros [? _]; lia].
  - destruct (decide (0 <= pos < n)) as [Hin|Hout].
    2:{ replace ((pos <? 0) || (n <=? pos)) with true by lia.
        intros [= <-]. split; [constructor|]. intros p.
        split; [intros Hp; inversion Hp | intros [? _]; lia]. }
    replace ((pos <? 0) || (n <=? pos)) with false by lia.
    replace (0 <? step) with false by (symmetry; apply Z.ltb_ge; lia).
    replace (step <? 0) with true by (symmetry; apply Z.ltb_lt; lia).
    cbn [andb orb].
    destruct (Z.ltb_spec (pos + step) stop) as [Hstop|Hstop].
    + intros [= <-]. split; [repeat constructor|].
      intros p. rewrite list_elem_of_singleton. split.
      * intros ->. split; [lia|]. exists 0. lia.
      * intros (_ & k & Hk & -> & Hn & [->|Hlt]); [lia|].
        assert (k = 0 \/ 1 <= k) as [->|?] by lia; [lia|nia].
    + destruct (slice_walk fuel (pos + step) stop step n) as [rest|] eqn:Hrest;
        [|discriminate].
      cbn [mbind Result_bind]. intros [= <-].
      destruct (IH _ _ Hrest) as [Hsorted Hmem].
      split.
      * constructor; [exact Hsorted|].
        apply Forall_forall. intros p Hp.
        apply Hmem in Hp as (_ & k & Hk & -> & _). nia.
      * intros p. rewrite elem_of_cons, Hmem. split.
        -- intros [->|(Hin' & k & Hk & -> & Hn & Hs)].
           ++ split; [lia|]. exists 0. lia.
           ++ split; [lia|]. exists (k + 1). split; [lia|].
              split; [lia|]. split; [lia|]. right.
              destruct Hs as [->|?]; lia.
        -- intros (_ & k & Hk & -> & Hn & Hs).
           destruct (Z.eq_dec k 0) as [->|Hk0]; [left; lia|].
           right. split; [nia|]. exists (k - 1).
           split; [lia|]. split; [lia|]. split; [lia|].
           right. destruct Hs; [lia|assumption].
Qed.

(** X15: With a positive step, each while loop of get_index_coefficients
    breaks; started at a position inside the dimension it visits that
    position (even if it is not below stop) and then every start + k*step
    that is below both the dimension and stop, in increasing order;
    started outside the dimension it visits nothing. *)
Theorem slice_walk_forward_selects pos stop step n :
  0 < step ->
  exists l,
    slice_walk (Z.to_nat n) pos stop step n = Ok l
    /\ StronglySorted Z.lt l
    /\ forall p,
         p ∈ l
         <-> 0 <= pos < n
             /\ exists k, 0 <= k /\ p = pos + k * step /\ p < n
                          /\ (k = 0 \/ p < stop).
Proof.
  intros Hstep.
  pose proof (slice_walk_terminates pos stop step n ltac:(lia)) as Hterm.
  destruct (slice_walk (Z.to_nat n) pos stop step n) as [l|] eqn:Hrun;
    [|discriminate].
  exists l. split; [reflexivity|].
  now apply (slice_walk_forward_positions _ _ _ _ _ _ Hstep Hrun).
Qed.

(** X16: With a negative step, each while loop of get_index_coefficients
    breaks; started at a position inside the dimension it visits that
    position and then every start + k*step that is neither negative nor
    below stop, in decreasing order: stop itself is visited when the walk
    lands on it (the loop breaks on row < row_stop). *)
Theorem slice_walk_backward_selects pos stop step n :
  step < 0 ->
  exists l,
    slice_walk (Z.to_nat n) pos stop step n = Ok l
    /\ StronglySorted Z.gt l
    /\ forall p,
         p ∈ l
         <-> 0 <= pos < n
             /\ exists k, 0 <= k /\ p = pos + k * step /\ 0 <= p
                          /\ (k = 0 \/ stop <= p).
Proof.
  intros Hstep.
  pose proof (slice_walk_terminates pos stop step n ltac:(lia)) as Hterm.
  destruct (slice_walk (Z.to_nat n) pos stop step n) as [l|] eqn:Hrun;
    [|discriminate].
  exists l. split; [reflexivity|].
  now apply (slice_walk_backward_positions _ _ _ _ _ _ Hstep Hrun).
Qed.

(** *** The index operator *)

(** A list of ones, the [k]-th in row [off + k]: row [a] holds the one of
    position [a - off], if there is one. *)
Lemma coeff_counted_rows (cs : list Z) (off : nat) a b :
  sumZ (map (fun t : Triplet =>
               match t with
               | (r, c, v) => if (r =? a) && (c =? b) then v else 0
               end)
            (imap (fun k c => (Z.of_nat (off + k), c, 1)) cs))
  = match (if a <? Z.of_nat off then None
           else cs !! (Z.to_nat a - off)%nat) with
    | Some col => if col =? b then 1 else 0
    | None => 0
    end.
Proof.
  revert off. induction cs as [|c cs IH]; intros off.
  - cbn. now destruct (a <? Z.of_nat off).
  - cbn [imap map sumZ].
    rewrite (imap_ext _ (fun k c => (Z.of_nat (S off + k), c, 1)))
      by (intros; cbn; do 2 f_equal; lia).
    rewrite IH. rewrite Nat.add_0_r.
    destruct (Z.ltb_spec a (Z.of_nat off)) as [Hlt|Hge].
    + assert (Hnext : (a <? Z.of_nat (S off)) = true) by (apply Z.ltb_lt; lia).
      assert (Hrow : (Z.of_nat off =? a) = false) by (apply Z.eqb_neq; lia).
      rewrite Hnext, Hrow. reflexivity.
    + destruct (Z.eqb_spec (Z.of_nat off) a) as [Heq|Hne].
      * assert (Hnext : (a <? Z.of_nat (S off)) = true)
          by (apply Z.ltb_lt; lia).
        rewrite Hnext.
        replace (Z.to_nat a - off)%nat with 0%nat by lia.
        cbn. lia.
      * assert (Hnext : (a <? Z.of_nat (S off)) = false)
          by (apply Z.ltb_ge; lia).
        rewrite Hnext.
        replace (Z.to_nat a - off)%nat with (S (Z.to_nat a - S off)) by lia.
        reflexivity.
Qed.

(** X17: When get_index_coefficients returns, it returns exactly one matrix,
    of shape (dim(expr), dim(arg)); its k-th triplet is a 1 in row k, which
    is a row of the matrix (k < dim(expr), the bound setFromTriplets
    asserts), at a column inside [0, dim(arg)).  So row a of the matrix
    holds a single 1, at the column of triplet a, when there is a triplet
    a, and is empty otherwise: the rows that select select one entry of the
    argument each, there are no more of them than dim(expr), and nothing is
    read outside the argument. *)
Theorem get_index_coefficients_selects expr f_coeffs :
  get_index_coefficients expr = Ok f_coeffs ->
  exists arg0 F,
    arg expr 0 = Ok arg0
    /\ f_coeffs = [F]
    /\ m_rows F = dim expr /\ m_cols F = dim arg0
    /\ (forall (k : nat) t,
          m_entries F !! k = Some t ->
          exists col,
            t = (Z.of_nat k, col, 1)
            /\ Z.of_nat k < dim expr /\ 0 <= col < dim arg0)
    /\ forall a b,
         coeff F a b
         = match (if a <? 0 then None else m_entries F !! Z.to_nat a) with
           | Some (_, col, _) => if col =? b then 1 else 0
           | None => 0
           end.
Proof.
  unfold get_index_coefficients.
  destruct (arg expr 0) as [arg0|]; [|discriminate].
  cbn [mbind Result_bind]. intros Hrun.
  exists arg0.
  match type of Hrun with
  | (if ?b then _ else _) = _ => destruct b
  end.
  { injection Hrun as <-. eexists. split; [reflexivity|].
    split; [reflexivity|]. split; [reflexivity|]. split; [reflexivity|].
    split.
    - intros k t Hk. discriminate Hk.
    - intros a b. cbn. now destruct (a <? 0). }
  destruct (attr_ptr expr) as [| | |rs cs| |]; try discriminate.
  match type of Hrun with
  | (?m ≫= _) = _ => destruct m as [col_walk|] eqn:Hcols; [|discriminate]
  end.
  cbn [mbind Result_bind] in Hrun.
  match type of Hrun with
  | (?m ≫= _) = _ => destruct m as [row_walk|] eqn:Hrows; [|discriminate]
  end.
  cbn [mbind Result_bind] in Hrun.
  unfold setFromTriplets in Hrun.
  destruct (in_bounds _ _ _) eqn:Hin; [|discriminate].
  cbn [mbind Result_bind] in Hrun. injection Hrun as <-.
  apply in_bounds_Forall in Hin as (_ & _ & Hin).
  eexists. split; [reflexivity|].
  split; [reflexivity|]. split; [reflexivity|]. split; [reflexivity|].
  cbn [m_entries]. split.
  - intros k t Hk.
    rewrite Forall_forall in Hin.
    pose proof (Hin _ (list_elem_of_lookup_2 _ _ _ Hk)) as Hrow.
    rewrite list_lookup_imap in Hk.
    destruct (_ !! k) as [c|] eqn:Hc; [|discriminate].
    injection Hk as <-. exists c. split; [reflexivity|].
    cbn [fst snd] in Hrow. split; [lia|].
    apply list_elem_of_lookup_2, list_elem_of_In, in_flat_map in Hc
      as (col & Hcol & Hc).
    apply in_map_iff in Hc as (row & <- & Hrow').
    apply slice_walk_in_range in Hcols.
    assert (Hrows' : Forall (fun p => 0 <= p < (size arg0).1) row_walk).
    { destruct col_walk; [destruct Hcol|].
      now apply slice_walk_in_range in Hrows. }
    rewrite Forall_forall in Hcols, Hrows'.
    apply list_elem_of_In in Hcol, Hrow'.
    specialize (Hcols _ Hcol). specialize (Hrows' _ Hrow').
    unfold dim. nia.
  - intros a b. unfold coeff. cbn [m_entries].
    rewrite (imap_ext _ (fun k c => (Z.of_nat (0 + k), c, 1)))
      by reflexivity.
    rewrite coeff_counted_rows. change (Z.of_nat 0) with 0.
    destruct (a <? 0); [reflexivity|].
    rewrite Nat.sub_0_r, list_lookup_imap.
    now destruct (_ !! Z.to_nat a).
Qed.

(** X18: With nonzero row and column steps, the loops of
    get_index_coefficients break: the function does not run forever. *)
Theorem get_index_coefficients_terminates expr rs cs :
  attr_ptr expr = IndexAttributes rs cs ->
  step rs <> 0 -> step cs <> 0 ->
  get_index_coefficients expr <> Fatal Unterminated.
Proof.
  intros Hattr Hrs Hcs. unfold get_index_coefficients, arg.
  destruct (nth_error (args expr) 0) as [arg0|]; cbn [mbind Result_bind];
    [|discriminate].
  destruct (_ || _); [discriminate|].
  rewrite Hattr.
  match goal with
  | |- (?m ≫= _) <> _ =>
      assert (Hterm : is_fatal m = false)
        by (apply slice_walk_terminates; assumption);
      destruct m as [col_walk|]; [|discriminate Hterm]
  end.
  cbn [mbind Result_bind].
  destruct col_walk as [|col col_walk].
  { cbn [mbind Result_bind]. unfold setFromTriplets.
    destruct (in_bounds _ _ _); cbn [mbind Result_bind]; discriminate. }
  match goal with
  | |- (?m ≫= _) <> _ =>
      assert (Hterm' : is_fatal m = false)
        by (apply slice_walk_terminates; assumption);
      destruct m as [row_walk|]; [|discriminate Hterm']
  end.
  cbn [mbind Result_bind]. unfold setFromTriplets.
  destruct (in_bounds _ _ _); cbn [mbind Result_bind]; discriminate.
Qed.

(** X19: When neither the INDEX node nor its argument is empty and the column
    slice starts inside the argument, a column step of zero, or a row step
    of zero with the row slice starting inside the argument, makes the
    loops of get_index_coefficients never break: a zero step is not
    rejected. *)
Theorem get_index_coefficients_zero_step expr arg0 rs cs :
  arg expr 0 = Ok arg0 ->
  attr_ptr expr = IndexAttributes rs cs ->
  dim expr <> 0 -> dim arg0 <> 0 ->
  let rows := (size arg0).1 in
  let cols := (size arg0).2 in
  let row_start := if start rs <? 0 then rows + start rs else start rs in
  let col_start := if start cs <? 0 then cols + start cs else start cs in
  0 <= col_start < cols ->
  step cs = 0 \/ (step rs = 0 /\ 0 <= row_start < rows) ->
  get_index_coefficients expr = Fatal Unterminated.
Proof.
  intros Harg Hattr Hexpr Hdim rows cols row_start col_start Hcol Hzero.
  unfold get_index_coefficients. rewrite Harg. cbn [mbind Result_bind].
  fold rows cols. unfold dim in Hdim. fold rows cols in Hdim.
  replace ((dim expr =? 0) || (rows * cols =? 0)) with false by lia.
  rewrite Hattr. fold col_start row_start.
  destruct (Z.eq_dec (step cs) 0) as [Hcs|Hcs].
  - rewrite Hcs, slice_walk_zero_step by exact Hcol. reflexivity.
  - destruct Hzero as [?|[Hrs Hrow]]; [contradiction|].
    pose proof (slice_walk_terminates col_start
                  (if stop cs <? 0 then cols + stop cs else stop cs)
                  (step cs) cols Hcs) as Hterm.
    destruct (slice_walk (Z.to_nat cols) col_start _ (step cs) cols)
      as [col_walk|] eqn:Hwalk; [|discriminate Hterm].
    cbn [mbind Result_bind].
    destruct col_walk as [|col col_walk].
    + exfalso. revert Hwalk.
      destruct (Z.to_nat cols); cbn [slice_walk];
        replace ((col_start <? 0) || (cols <=? col_start)) with false by lia;
        [discriminate|].
      destruct (_ || _); [discriminate|].
      destruct (slice_walk _ _ _ _ _); discriminate.
    + rewrite Hrs, slice_walk_zero_step by exact Hrow. reflexivity.
Qed.

End OperatorFacts.

(** ** What a traversal of the cone transform does *)

Lemma mints_and_emits_ret {A} (a : A) : mints_and_emits 0 0 (mret a).
Proof. intros st a' st' [= _ <-]. split; lia. Qed.

Lemma mints_and_emits_cast {A} v c v' c' (m : Transform A) :
  v = v' -> c = c' -> mints_and_emits v c m -> mints_and_emits v' c' m.
Proof. now intros -> ->. Qed.

Lemma mints_and_emits_abort {A} v c why : mints_and_emits v c (@abort A why).
Proof. intros st a st' [=]. Qed.

Lemma mints_and_emits_bind {A B} v1 c1 v2 c2 (m : Transform A) (f : A -> Transform B) :
  mints_and_emits v1 c1 m -> (forall a, mints_and_emits v2 c2 (f a)) ->
  mints_and_emits (v1 + v2) (c1 + c2) (m ≫= f).
Proof.
  intros Hm Hf st b st'. unfold mbind, Transform_bind.
  destruct (m st) as [[a st1]|why] eqn:Hrun; [|discriminate].
  intros Hrun'.
  destruct (Hm _ _ _ Hrun) as [Hv1 Hc1], (Hf _ _ _ _ Hrun') as [Hv2 Hc2].
  split; lia.
Qed.

Lemma mints_and_emits_push_back c : mints_and_emits 0 1 (push_back c).
Proof.
  intros st a st' [= _ <-]. cbn [next_var_id emitted].
  rewrite length_app. cbn [length]. split; lia.
Qed.

Lemma mints_and_emits_arg_of e i : mints_and_emits 0 0 (arg_of e i).
Proof.
  intros st a st'. unfold arg_of. destruct (arg e i); [|discriminate].
  intros [= _ <-]. split; lia.
Qed.

Section TraversalFacts.
Context `{Oracle}.

Lemma mints_and_emits_epi_var parent label :
  mints_and_emits 1 0 (epi_var parent label).
Proof. intros st a st' [= _ <-]. cbn [next_var_id emitted]. split; lia. Qed.

Lemma mints_and_emits_scalar_epi_var parent label :
  mints_and_emits 1 0 (scalar_epi_var parent label).
Proof. intros st a st' [= _ <-]. cbn [next_var_id emitted]. split; lia. Qed.

Lemma mints_and_emits_transform_abs expr :
  mints_and_emits 1 2 (transform_abs expr).
Proof.
  unfold transform_abs.
  apply (mints_and_emits_bind 0 0 1 2); [apply mints_and_emits_arg_of|intros x].
  apply (mints_and_emits_bind 1 0 0 2); [apply mints_and_emits_epi_var|intros t].
  apply (mints_and_emits_bind 0 1 0 1); [apply mints_and_emits_push_back|intros _].
  apply (mints_and_emits_bind 0 1 0 0); [apply mints_and_emits_push_back|intros _].
  apply mints_and_emits_ret.
Qed.

Lemma mints_and_emits_transform_p_norm expr :
  mints_and_emits 1 2 (transform_p_norm expr).
Proof.
  unfold transform_p_norm.
  destruct (attr_ptr expr); try apply mints_and_emits_abort.
  destruct (p =? 1); [|apply mints_and_emits_abort].
  apply (mints_and_emits_bind 1 2 0 0); [apply mints_and_emits_transform_abs|].
  intros t. apply mints_and_emits_ret.
Qed.

Lemma mints_and_emits_transform_quad_over_lin expr :
  mints_and_emits 1 2 (transform_quad_over_lin expr).
Proof.
  unfold transform_quad_over_lin.
  apply (mints_and_emits_bind 0 0 1 2); [apply mints_and_emits_arg_of|intros x].
  apply (mints_and_emits_bind 0 0 1 2); [apply mints_and_emits_arg_of|intros y].
  apply (mints_and_emits_bind 1 0 0 2); [apply mints_and_emits_scalar_epi_var|intros t].
  apply (mints_and_emits_bind 0 1 0 1); [apply mints_and_emits_push_back|intros _].
  apply (mints_and_emits_bind 0 1 0 0); [apply mints_and_emits_push_back|intros _].
  apply mints_and_emits_ret.
Qed.

Lemma mints_and_emits_transform_args args :
  Forall (fun e => mints_and_emits (count_atoms e) (2 * count_atoms e)
                     (transform_expression e)) args ->
  mints_and_emits (list_sum (map count_atoms args))
                  (2 * list_sum (map count_atoms args))
                  (transform_args args).
Proof.
  induction 1 as [|a args Ha _ IH]; cbn [transform_args].
  - apply mints_and_emits_ret.
  - assert (Hsum : list_sum (map count_atoms (a :: args))
                   = (count_atoms a + list_sum (map count_atoms args))%nat)
      by reflexivity.
    rewrite Hsum.
    apply (mints_and_emits_cast
             (count_atoms a + (list_sum (map count_atoms args) + 0))
             (2 * count_atoms a + (2 * list_sum (map count_atoms args) + 0)));
      [lia|lia|].
    apply mints_and_emits_bind; [exact Ha|intros a'].
    apply mints_and_emits_bind; [exact IH|intros tail].
    apply mints_and_emits_ret.
Qed.

Lemma mints_and_emits_transform_expression e :
  mints_and_emits (count_atoms e) (2 * count_atoms e) (transform_expression e).
Proof.
  induction e as [t args attr IH] using Expression_ind'.
  rewrite transform_expression_unfold.
  apply mints_and_emits_transform_args in IH.
  set (k := list_sum (map count_atoms args)) in *.
  assert (Hreg : forall f, kTransforms t = Some f ->
                   count_atoms (Expr t args attr) = (k + 1)%nat
                   /\ forall expr, mints_and_emits 1 2 (f expr)).
  { intros f Hf. destruct t; try discriminate; injection Hf as <-;
      (split; [cbn [count_atoms]; fold k; lia|]);
      auto using mints_and_emits_transform_abs, mints_and_emits_transform_p_norm,
                 mints_and_emits_transform_quad_over_lin. }
  destruct (kTransforms t) as [f|] eqn:Hf.
  - destruct (Hreg f eq_refl) as [-> Hfm].
    apply (mints_and_emits_cast (k + 1) (2 * k + 2)); [lia|lia|].
    apply mints_and_emits_bind; [exact IH|intros l; apply Hfm].
  - assert (Hcount : count_atoms (Expr t args attr) = (k + 0)%nat)
      by (destruct t; try discriminate; cbn [count_atoms]; fold k; lia).
    rewrite Hcount.
    apply (mints_and_emits_cast (k + 0) (2 * k + 0)); [lia|lia|].
    apply mints_and_emits_bind; [exact IH|intros l; apply mints_and_emits_ret].
Qed.

(** *** What is returned and emitted is affine *)

Lemma stays_affine_ret {A} (P : A -> Prop) (a : A) :
  P a -> stays_affine P (mret a).
Proof. intros HP st a' st' Hacc [= <- <-]. now split. Qed.

Lemma stays_affine_abort {A} (P : A -> Prop) why : stays_affine P (@abort A why).
Proof. intros st a st' _ [=]. Qed.

Lemma stays_affine_bind {A B} (P : A -> Prop) (Q : B -> Prop)
    (m : Transform A) (f : A -> Transform B) :
  stays_affine P m -> (forall a, P a -> stays_affine Q (f a)) ->
  stays_affine Q (m ≫= f).
Proof.
  intros Hm Hf st b st' Hacc. unfold mbind, Transform_bind.
  destruct (m st) as [[a st1]|why] eqn:Hrun; [|discriminate].
  intros Hrun'.
  destruct (Hm _ _ _ Hacc Hrun) as [HP Hacc1].
  exact (Hf a HP _ _ _ Hacc1 Hrun').
Qed.

Lemma stays_affine_push_back c :
  no_registered_atom c = true -> stays_affine (fun _ => True) (push_back c).
Proof.
  intros Hc st a st' Hacc [= _ <-]. split; [exact I|].
  cbn [emitted]. apply Forall_app. split; [exact Hacc|]. now constructor.
Qed.

Lemma stays_affine_arg_of e i :
  Forall (fun a => no_registered_atom a = true) (args e) ->
  stays_affine (fun a => no_registered_atom a = true) (arg_of e i).
Proof.
  intros Hargs st a st' Hacc. unfold arg_of, arg.
  destruct (nth_error (args e) i) as [x|] eqn:Hx; [|discriminate].
  intros [= <- <-]. split; [|exact Hacc].
  rewrite Forall_forall in Hargs. apply Hargs.
  apply list_elem_of_In. eapply nth_error_In. exact Hx.
Qed.

Lemma stays_affine_epi_var parent label :
  stays_affine (fun t => no_registered_atom t = true) (epi_var parent label).
Proof. intros st a st' Hacc [= <- <-]. now split. Qed.

Lemma stays_affine_scalar_epi_var parent label :
  stays_affine (fun t => no_registered_atom t = true)
               (scalar_epi_var parent label).
Proof. intros st a st' Hacc [= <- <-]. now split. Qed.

Ltac affine_atoms :=
  cbv beta in *;
  cbn [no_registered_atom leq neg add mul vstack soc constant sum_entries
       forallb andb];
  repeat match goal with
         | H : no_registered_atom _ = true |- _ => rewrite H
         end;
  reflexivity.

Lemma stays_affine_transform_abs expr :
  Forall (fun a => no_registered_atom a = true) (args expr) ->
  stays_affine (fun t => no_registered_atom t = true) (transform_abs expr).
Proof.
  intros Hargs. unfold transform_abs.
  eapply stays_affine_bind; [now apply stays_affine_arg_of|intros x Hx].
  eapply stays_affine_bind; [apply stays_affine_epi_var|intros t Ht].
  eapply stays_affine_bind; [apply stays_affine_push_back; affine_atoms|intros _ _].
  eapply stays_affine_bind; [apply stays_affine_push_back; affine_atoms|intros _ _].
  now apply stays_affine_ret.
Qed.

Lemma stays_affine_transform_p_norm expr :
  Forall (fun a => no_registered_atom a = true) (args expr) ->
  stays_affine (fun t => no_registered_atom t = true) (transform_p_norm expr).
Proof.
  intros Hargs. unfold transform_p_norm.
  destruct (attr_ptr expr); try apply stays_affine_abort.
  destruct (p =? 1); [|apply stays_affine_abort].
  eapply stays_affine_bind; [now apply stays_affine_transform_abs|intros t Ht].
  apply stays_affine_ret. affine_atoms.
Qed.

Lemma stays_affine_transform_quad_over_lin expr :
  Forall (fun a => no_registered_atom a = true) (args expr) ->
  stays_affine (fun t => no_registered_atom t = true)
               (transform_quad_over_lin expr).
Proof.
  intros Hargs. unfold transform_quad_over_lin.
  eapply stays_affine_bind; [now apply stays_affine_arg_of|intros x Hx].
  eapply stays_affine_bind; [now apply stays_affine_arg_of|intros y Hy].
  eapply stays_affine_bind; [apply stays_affine_scalar_epi_var|intros t Ht].
  eapply stays_affine_bind; [apply stays_affine_push_back; affine_atoms|intros _ _].
  eapply stays_affine_bind; [apply stays_affine_push_back; affine_atoms|intros _ _].
  now apply stays_affine_ret.
Qed.

Lemma stays_affine_transform_args args :
  Forall (fun e => stays_affine (fun e' => no_registered_atom e' = true)
                     (transform_expression e)) args ->
  stays_affine (Forall (fun e' => no_registered_atom e' = true))
               (transform_args args).
Proof.
  induction 1 as [|a args Ha _ IH]; cbn [transform_args].
  - now apply stays_affine_ret.
  - eapply stays_affine_bind; [exact Ha|intros a' Ha'].
    eapply stays_affine_bind; [exact IH|intros tail Htail].
    apply stays_affine_ret. now constructor.
Qed.

Lemma stays_affine_transform_expression e :
  stays_affine (fun e' => no_registered_atom e' = true) (transform_expression e).
Proof.
  induction e as [t args attr IH] using Expression_ind'.
  rewrite transform_expression_unfold.
  eapply stays_affine_bind; [now apply stays_affine_transform_args|].
  intros linear_args Hlinear.
  destruct t; cbn [kTransforms];
    try (apply stays_affine_ret; cbn [no_registered_atom];
         apply forallb_forall; intros x Hx;
         rewrite Forall_forall in Hlinear; apply Hlinear;
         now apply list_elem_of_In).
  - now apply stays_affine_transform_abs.
  - now apply stays_affine_transform_p_norm.
  - now apply stays_affine_transform_quad_over_lin.
Qed.


(** *** When the traversal fails *)

Lemma transform_args_outcome args :
  Forall (fun e => atoms_readable e = true ->
                   forall st,
                     if norms_are_one e
                     then exists e' st', transform_expression e st = Ok (e', st')
                     else transform_expression e st = Fatal CheckEqFailed) args ->
  forallb atoms_readable args = true ->
  forall st,
    if forallb norms_are_one args
    then exists l st', transform_args args st = Ok (l, st')
                       /\ length l = length args
    else transform_args args st = Fatal CheckEqFailed.
Proof.
  induction 1 as [|a args Ha _ IH]; intros Hread st.
  - cbn. exists [], st. now split.
  - cbn [forallb] in Hread |- *. apply andb_true_iff in Hread as [Hra Hrargs].
    specialize (Ha Hra st). specialize (IH Hrargs).
    cbn [transform_args]. unfold mbind, Transform_bind.
    destruct (norms_are_one a); cbn [andb].
    + destruct Ha as (a' & st1 & ->).
      specialize (IH st1).
      destruct (forallb norms_are_one args).
      * destruct IH as (l & st2 & -> & Hlen).
        exists (a' :: l), st2. split; [reflexivity|]. cbn [length]. now rewrite Hlen.
      * now rewrite IH.
    + now rewrite Ha.
Qed.

(** X23: On a tree in which every ABS and P_NORM node has at least one child,
    every QUAD_OVER_LIN node at least two, and every P_NORM node carries
    PNormAttributes, transform_expression returns if every P_NORM node of
    the tree has p = 1 and aborts on CHECK_EQ otherwise, wherever in the
    tree the offending node sits. *)
Lemma transform_expression_outcome e :
  atoms_readable e = true ->
  forall st,
    if norms_are_one e
    then exists e' st', transform_expression e st = Ok (e', st')
    else transform_expression e st = Fatal CheckEqFailed.
Proof.
  induction e as [t args attr IH] using Expression_ind'.
  intros Hread st.
  cbn [atoms_readable] in Hread. apply andb_true_iff in Hread as [Hnode Hrargs].
  pose proof (transform_args_outcome args IH Hrargs st) as Hargs.
  rewrite transform_expression_unfold. unfold mbind, Transform_bind.
  cbn [norms_are_one].
  destruct (forallb norms_are_one args).
  - destruct Hargs as (l & st1 & -> & Hlen).
    rewrite andb_true_r.
    destruct t; cbn [kTransforms];
      try (destruct attr; eexists; eexists; reflexivity).
    + (* ABS *)
      apply Nat.leb_le in Hnode. rewrite <- Hlen in Hnode.
      destruct l as [|x l]; [cbn in Hnode; lia|].
      destruct attr; eexists; eexists; reflexivity.
    + (* P_NORM *)
      apply andb_true_iff in Hnode as [Hnode Hattr].
      apply Nat.leb_le in Hnode. rewrite <- Hlen in Hnode.
      destruct l as [|x l]; [cbn in Hnode; lia|].
      destruct attr; try discriminate.
      unfold transform_p_norm. cbn [attr_ptr].
      destruct (p =? 1); [|reflexivity].
      eexists; eexists; reflexivity.
    + (* QUAD_OVER_LIN *)
      apply Nat.leb_le in Hnode. rewrite <- Hlen in Hnode.
      destruct l as [|x [|y l]]; try (cbn in Hnode; lia).
      destruct attr; eexists; eexists; reflexivity.
  - rewrite Hargs. now rewrite andb_false_r.
Qed.

(** *** The loop over the constraints *)

Lemma mints_and_emits_transform_constraints rest :
  mints_and_emits
    (list_sum (map count_atoms rest))
    (2 * list_sum (map count_atoms rest) + length rest)
    (transform_constraints rest).
Proof.
  induction rest as [|c rest IH]; cbn [transform_constraints].
  - apply mints_and_emits_ret.
  - assert (Hsum : list_sum (map count_atoms (c :: rest))
                   = (count_atoms c + list_sum (map count_atoms rest))%nat)
      by reflexivity.
    rewrite Hsum. cbn [length].
    apply (mints_and_emits_cast
             (count_atoms c + (0 + list_sum (map count_atoms rest)))
             (2 * count_atoms c
              + (1 + (2 * list_sum (map count_atoms rest) + length rest))));
      [lia|lia|].
    apply mints_and_emits_bind;
      [apply mints_and_emits_transform_expression|intros c'].
    apply mints_and_emits_bind; [apply mints_and_emits_push_back|intros _].
    exact IH.
Qed.

Lemma stays_affine_transform_constraints rest :
  stays_affine (fun _ => True) (transform_constraints rest).
Proof.
  induction rest as [|c rest IH]; cbn [transform_constraints].
  - now apply stays_affine_ret.
  - eapply stays_affine_bind;
      [apply stays_affine_transform_expression|intros c' Hc'].
    eapply stays_affine_bind; [now apply stays_affine_push_back|intros _ _].
    exact IH.
Qed.


(** *** What a traversal leaves behind *)

(** X20: When transform_expression returns, the expression it returns contains
    no ABS, P_NORM or QUAD_OVER_LIN node, the accumulator is the one it
    was given followed by the new constraints, and no new constraint
    contains such a node. *)
Theorem transform_expression_output_affine e st e' st' :
  transform_expression e st = Ok (e', st') ->
  no_registered_atom e' = true
  /\ exists new,
       emitted st' = emitted st ++ new
       /\ Forall (fun c => no_registered_atom c = true) new.
Proof.
  destruct st as [n acc].
  rewrite appends_only_transform_expression.
  destruct (transform_expression e {| next_var_id := n; emitted := [] |})
    as [[e0 [n0 new]]|] eqn:Hrun; [|discriminate].
  cbn [with_prefix next_var_id emitted]. intros [= <- <-].
  destruct (stays_affine_transform_expression
              e {| next_var_id := n; emitted := [] |} _ _ (Forall_nil_2 _) Hrun)
    as [He0 Hnew].
  split; [exact He0|]. exists new. now split.
Qed.

(** X21: Transforming the expression transform_expression returned once more
    returns it unchanged, mints no variable and appends no constraint,
    from any state. *)
Theorem transform_expression_idempotent e st e' st' :
  transform_expression e st = Ok (e', st') ->
  forall st2, transform_expression e' st2 = Ok (e', st2).
Proof.
  destruct st as [n acc].
  rewrite appends_only_transform_expression.
  destruct (transform_expression e {| next_var_id := n; emitted := [] |})
    as [[e0 [n0 new]]|] eqn:Hrun; [|discriminate].
  cbn [with_prefix]. intros [= <- _].
  apply transform_expression_identity.
  now destruct (stays_affine_transform_expression
              e {| next_var_id := n; emitted := [] |} _ _ (Forall_nil_2 _) Hrun).
Qed.

(** X22: When transform_expression returns, it has called the minter once and
    appended two constraints for every ABS, P_NORM and QUAD_OVER_LIN node
    of the input tree, and nothing more. *)
Theorem transform_expression_counts e st e' st' :
  transform_expression e st = Ok (e', st') ->
  next_var_id st' = next_var_id st + Z.of_nat (count_atoms e)
  /\ length (emitted st') = (length (emitted st) + 2 * count_atoms e)%nat.
Proof. apply mints_and_emits_transform_expression. Qed.

(** X24: When LinearConeTransform::transform returns, the result has the sense
    of the input, an objective and constraints free of ABS, P_NORM and
    QUAD_OVER_LIN nodes, and exactly the number of input constraints plus
    two for every such node of the input objective and constraints, each
    of which also cost one call of the minter. *)
Theorem transform_problem_shape problem first_id problem' last_id :
  transform problem first_id = Ok (problem', last_id) ->
  let atoms := (count_atoms (objective problem)
                + list_sum (map count_atoms (constraints problem)))%nat in
  sense problem' = sense problem
  /\ last_id = first_id + Z.of_nat atoms
  /\ length (constraints problem')
     = (length (constraints problem) + 2 * atoms)%nat
  /\ no_registered_atom (objective problem') = true
  /\ Forall (fun c => no_registered_atom c = true) (constraints problem').
Proof.
  intros Hrun atoms. subst atoms. revert Hrun.
  unfold transform, mbind, Transform_bind.
  destruct (transform_expression (objective problem) _)
    as [[linear_objective st1]|] eqn:Hobj; [|discriminate].
  destruct (transform_constraints (constraints problem) st1)
    as [[[] st2]|] eqn:Hcons; [|discriminate].
  cbn [mret Transform_ret]. intros [= <- <-].
  destruct (mints_and_emits_transform_expression _ _ _ _ Hobj) as [Hv1 Hc1].
  destruct (mints_and_emits_transform_constraints _ _ _ _ Hcons) as [Hv2 Hc2].
  destruct (stays_affine_transform_expression
              _ {| next_var_id := first_id; emitted := [] |} _ _
              (Forall_nil_2 _) Hobj) as [Hobj' Hacc1].
  destruct (stays_affine_transform_constraints _ _ _ _ Hacc1 Hcons)
    as [_ Hacc2].
  cbn [sense objective constraints next_var_id emitted length] in *.
  repeat split; try assumption; lia.
Qed.

End TraversalFacts.

(** * The code on concrete inputs *)

(** Every run below is under [spec_oracle]. *)

(** S1: [VAR(id=0, shape=(2,1))] gives [{0 -> I_2}]. *)
Example get_coefficients_S1 :
  get_coefficients (H := spec_oracle) (var 2 1 0)
  = Ok {[ 0 := sparse_matrix 2 2 [(0, 0, 1); (1, 1, 1)] ]}.
Proof. vm_compute. reflexivity. Qed.

(** S2: [ADD(VAR(id=0, (2,1)), CONST([[3],[4]]))] gives
    [{0 -> I_2, CONST_ID -> (3, 4)}], up to the product with the identity
    operator of [ADD]. *)
Example get_coefficients_S2 :
  get_coefficients (H := spec_oracle)
    (add (var 2 1 0) (const_of (mkDense 2 1 [3; 4])))
  = Ok (<[ 0 := sparse_matrix 2 2 [(0, 0, 1); (1, 1, 1)] ]>
          {[ -1 := sparse_matrix 2 1 [(0, 0, 3); (1, 0, 4)] ]}).
Proof. vm_compute. reflexivity. Qed.

(** S4: [SUM_ENTRIES(VAR(id=0, (3,1)))] gives [{0 -> [[1, 1, 1]]}]. *)
Example get_coefficients_S4 :
  get_coefficients (H := spec_oracle) (sum_entries (var 3 1 0))
  = Ok {[ 0 := sparse_matrix 1 3 [(0, 0, 1); (0, 1, 1); (0, 2, 1)] ]}.
Proof. vm_compute. reflexivity. Qed.

(** C1: on the spec's own scenario S3, a [(2, 2)] constant times a [(2, 1)]
    variable, both children have their [CoeffMap], the left one constant,
    but the operator is built from the flattened [(4, 1)] coefficient of the
    constant, has one column where the variable's identity has two rows,
    and [get_coefficients] aborts on [CHECK_EQ] instead of returning
    [{0 -> [[1, 2], [3, 4]]}]. *)
Theorem get_coefficients_matrix_times_vector_aborts :
  size_spec matrix_times_vector = (2, 1)
  /\ get_coefficients (H := spec_oracle) (const_of dense_1234)
     = Ok {[ -1 := sparse_matrix 4 1 [(0, 0, 1); (1, 0, 3); (2, 0, 2); (3, 0, 4)] ]}
  /\ get_coefficients (H := spec_oracle) (var 2 1 0)
     = Ok {[ 0 := sparse_matrix 2 2 [(0, 0, 1); (1, 1, 1)] ]}
  /\ get_coefficients (H := spec_oracle) matrix_times_vector
     = Fatal CheckEqFailed.
Proof. repeat split; vm_compute; reflexivity. Qed.

(** C2, as stated, fails on the spec's scenario S5: for the [(2, 3)]
    argument the listed positions include row 2, column 1 (from
    [(i, j) = (0, 1)]), where the operator of the code holds nothing. *)
Lemma transpose_entries_not_as_claimed :
  size_spec (var 2 3 0) = (2, 3)
  /\ size_spec transpose_2x3 = (3, 2)
  /\ exists T,
       get_transpose_coefficients (H := spec_oracle) transpose_2x3 = [T]
       /\ coeff T 2 1 = 0
       /\ coeff T 3 1 = 1
       /\ ~ transpose_entries 2 3 T.
Proof.
  split; [reflexivity|]. split; [reflexivity|].
  eexists. split; [reflexivity|].
  split; [reflexivity|]. split; [reflexivity|].
  intros [Hone _].
  specialize (Hone 0 1 ltac:(lia) ltac:(lia)).
  vm_compute in Hone. discriminate Hone.
Qed.

Lemma get_transpose_coefficients_transposes_witness :
  exists T,
    get_transpose_coefficients (H := spec_oracle) transpose_2x3 = [T]
    /\ m_entries T
       = [(0, 0, 1); (3, 1, 1); (1, 2, 1); (4, 3, 1); (2, 4, 1); (5, 5, 1)]
    /\ vec_at (mat_vec T (to_vector dense_2x3)) (1 * 3 + 2)
       = dense_at dense_2x3 1 2.
Proof.
  destruct (get_transpose_coefficients_transposes (H := spec_oracle)
              transpose_2x3 2 3 eq_refl)
    as (T & HT & _ & _ & Hentries & _ & HM).
  exists T. split; [exact HT|]. split; [exact Hentries|].
  apply (HM dense_2x3 eq_refl eq_refl); lia.
Defined.

(** C3: at a [MUL] node the operator is built from the [CONST_ID] entry of
    the constant side, the [(r c, 1)] flattening of [B], not from [B].  For
    the [(2, 2)] constant of S3 on the left (one result column) it is the
    [(4, 1)] column and not the [(2, 2)] block; on the right (one row on
    the unknown side) it is [(1, 4)] and not [(2, 2)]. *)
Theorem mul_operator_built_from_flattened_constant :
  (exists lhs_coeffs F,
     get_coefficients (H := spec_oracle) (const_of dense_1234) = Ok lhs_coeffs
     /\ is_constant (H := spec_oracle) lhs_coeffs = true
     /\ get_left_mul_coefficients (H := spec_oracle) matrix_times_vector
          (at_key lhs_coeffs (-1)) = Ok [F]
     /\ F = sparse_matrix 4 1 [(0, 0, 1); (1, 0, 3); (2, 0, 2); (3, 0, 4)])
  /\
  (exists rhs_coeffs F,
     get_coefficients (H := spec_oracle) (const_of dense_1234) = Ok rhs_coeffs
     /\ is_constant (H := spec_oracle) rhs_coeffs = true
     /\ size_spec vector_times_matrix = (1, 2)
     /\ get_right_mul_coefficients (H := spec_oracle) vector_times_matrix
          (at_key rhs_coeffs (-1)) = Ok [F]
     /\ F = sparse_matrix 1 4 [(0, 0, 1); (0, 1, 3); (0, 2, 2); (0, 3, 4)]).
Proof.
  split; eexists; eexists; repeat split; vm_compute; reflexivity.
Qed.

(** C4: on the spec's scenario S3 both children have a [CoeffMap] and the
    left one is constant, so the claim has [get_coefficients] succeed with
    [{0 -> F * I_2}].  [F], the single operator built from the [CONST_ID]
    entry of the constant side, is the [(4, 1)] flattening of the [(2, 2)]
    constant; its one column does not match the two rows of the variable's
    coefficient, and [get_coefficients] aborts on the [CHECK_EQ] of
    [multiply_by_constant]: a [MUL] with a constant child fails, so it does
    not fail only when neither child is constant. *)
Theorem get_coefficients_mul_constant_child_aborts :
  exists lhs_coeffs rhs_coeffs F,
    get_coefficients (H := spec_oracle) (const_of dense_1234) = Ok lhs_coeffs
    /\ get_coefficients (H := spec_oracle) (var 2 1 0) = Ok rhs_coeffs
    /\ is_constant (H := spec_oracle) lhs_coeffs = true
    /\ get_left_mul_coefficients (H := spec_oracle) matrix_times_vector
         (at_key lhs_coeffs (-1)) = Ok [F]
    /\ m_cols F = 1
    /\ m_rows <$> rhs_coeffs !! 0 = Some 2
    /\ get_coefficients (H := spec_oracle) matrix_times_vector
       = Fatal CheckEqFailed
    /\ ~ mul_fails_iff_no_constant (H := spec_oracle)
           (const_of dense_1234) (var 2 1 0).
Proof.
  do 3 eexists.
  do 7 (split; [vm_compute; reflexivity|]).
  intros Hclaim.
  destruct (Hclaim _ _ eq_refl eq_refl) as [Hfails _].
  destruct (Hfails ltac:(vm_compute; reflexivity)) as [Hlhs _].
  vm_compute in Hlhs. discriminate Hlhs.
Qed.

(** C5: the product of two empty slices, of shape [(1, 2)], has a
    [CoeffMap]; its only matrix has one row, and [dim] is two. *)
Theorem get_coefficients_rows_below_dim :
  size_spec empty_slice_product = (1, 2)
  /\ dim (H := spec_oracle) empty_slice_product = 2
  /\ get_coefficients (H := spec_oracle) empty_slice_product
     = Ok {[ 0 := sparse_matrix 1 3 [] ]}.
Proof. repeat split; vm_compute; reflexivity. Qed.

(** S6: the cone transform of [ABS(VAR(id=0, (1,1)))], the minter at 7. *)
Lemma transform_expression_abs_witness :
  transform_expression (H := spec_oracle)
    (Expr ABS [var 1 1 0] NoAttributes) (mkState 7 [])
  = Ok (var 1 1 7,
        mkState 8 [leq (var 1 1 0) (var 1 1 7);
                   leq (neg (var 1 1 0)) (var 1 1 7)]).
Proof.
  exact (transform_expression_abs (H := spec_oracle)
           (var 1 1 0) NoAttributes (mkState 7 []) (var 1 1 0) (mkState 7 [])
           eq_refl).
Defined.

(** S7: the cone transform of
    [QUAD_OVER_LIN(VAR(id=0, (3,1)), VAR(id=1, (1,1)))], the minter at 7. *)
Lemma transform_expression_quad_over_lin_witness :
  transform_expression (H := spec_oracle)
    (Expr QUAD_OVER_LIN [var 3 1 0; var 1 1 1] NoAttributes) (mkState 7 [])
  = Ok (var 1 1 7,
        mkState 8
          [soc (vstack [add (var 1 1 1) (neg (var 1 1 7));
                        mul (constant 2) (var 3 1 0)])
               (add (var 1 1 1) (var 1 1 7));
           leq (constant 0) (var 1 1 1)]).
Proof.
  exact (transform_expression_quad_over_lin (H := spec_oracle)
           (var 3 1 0) (var 1 1 1) NoAttributes (mkState 7 [])
           (var 3 1 0) (mkState 7 []) (var 1 1 1) (mkState 7 [])
           eq_refl eq_refl).
Defined.

Lemma transform_expression_p_norm_witness :
  (exists why,
     transform_expression (H := spec_oracle)
       (Expr P_NORM [var 3 1 0] (PNormAttributes 2)) (mkState 7 [])
     = Fatal why)
  /\
  transform_expression (H := spec_oracle)
    (Expr P_NORM [var 3 1 0] (PNormAttributes 1)) (mkState 7 [])
  = Ok (sum_entries (var 1 1 7),
        mkState 8 [leq (var 3 1 0) (var 1 1 7);
                   leq (neg (var 3 1 0)) (var 1 1 7)]).
Proof.
  split.
  - apply (transform_expression_p_norm (H := spec_oracle) 2). lia.
  - exact (proj2 (transform_expression_p_norm (H := spec_oracle)
                    1 [var 3 1 0] (mkState 7 []))
             eq_refl (var 3 1 0) (var 3 1 0) (mkState 7 []) eq_refl eq_refl).
Defined.

(** C8: for [p = 1] on a [(3, 1)] variable [x], [transform_p_norm] invokes
    the [ABS] rewrite on the [P_NORM] node itself, so the epigraph variable
    [t] has the shape of that node, [(1, 1)]: the result is [SUM_ENTRIES(t)]
    for a scalar [t] under [x <= t] and [-x <= t].  [SUM_ENTRIES(ABS(x))],
    which the claim names, comes out with [t] of the shape of the [ABS]
    node, [(3, 1)]. *)
Theorem transform_p_norm_epigraph_has_norm_shape :
  let x := var 3 1 0 in
  size_spec (Expr P_NORM [x] (PNormAttributes 1)) = (1, 1)
  /\ size_spec (Expr ABS [x] NoAttributes) = (3, 1)
  /\ transform_expression (H := spec_oracle)
       (Expr P_NORM [x] (PNormAttributes 1)) (mkState 7 [])
     = Ok (sum_entries (var 1 1 7),
           mkState 8 [leq x (var 1 1 7); leq (neg x) (var 1 1 7)])
  /\ transform_expression (H := spec_oracle)
       (sum_entries (Expr ABS [x] NoAttributes)) (mkState 7 [])
     = Ok (sum_entries (var 3 1 7),
           mkState 8 [leq x (var 3 1 7); leq (neg x) (var 3 1 7)]).
Proof. repeat split; vm_compute; reflexivity. Qed.

Lemma transform_expression_affine_unchanged_witness :
  transform_expression (H := spec_oracle) affine_tree (mkState 7 [])
  = Ok (affine_tree, mkState 7 []).
Proof.
  exact (transform_expression_affine_unchanged (H := spec_oracle)
           affine_tree 7 eq_refl).
Defined.

(** ** Instances of the further properties *)

Lemma get_left_mul_coefficients_block_diagonal_witness :
  exists F,
    get_left_mul_coefficients (H := spec_oracle) vector_times_matrix
      sparse_col_12 = Ok [F]
    /\ m_rows F = 4 /\ m_cols F = 2
    /\ coeff F 3 1 = 2.
Proof.
  destruct (get_left_mul_coefficients_block_diagonal (H := spec_oracle)
              vector_times_matrix sparse_col_12
              ltac:(vm_compute; congruence) eq_refl eq_refl eq_refl)
    as (F & HF & Hrows & Hcols & Hcoeff).
  exists F. split; [exact HF|]. split; [exact Hrows|]. split; [exact Hcols|].
  rewrite Hcoeff. reflexivity.
Defined.

Lemma get_right_mul_coefficients_scaled_identities_witness :
  exists F,
    get_right_mul_coefficients (H := spec_oracle) matrix_times_column
      sparse_col_12 = Ok [F]
    /\ coeff F (0 * 3 + 1) (1 * 3 + 1) = coeff sparse_col_12 1 0.
Proof.
  destruct (get_right_mul_coefficients_scaled_identities (H := spec_oracle)
              matrix_times_column sparse_col_12
              ltac:(vm_compute; congruence) eq_refl eq_refl eq_refl
              eq_refl eq_refl)
    as (F & HF & _ & _ & Hcoeff).
  exists F. split; [exact HF|].
  exact (Hcoeff 1 0 1 1 ltac:(repeat split; vm_compute; congruence) ltac:(repeat split; vm_compute; congruence)).
Defined.

Lemma is_constant_iff_witness :
  is_constant (H := spec_oracle) {[ -1 := sparse_col_12 ]} = true.
Proof.
  apply (is_constant_iff (H := spec_oracle)).
  exists sparse_col_12. reflexivity.
Defined.

Lemma multiply_by_constant_adds_witness :
  exists M',
    ({[ 0 := mkSparse 2 1 [(0, 0, 5); (0, 0, 1); (1, 0, 2)] ]} : CoeffMap) !! 0
    = Some M'
    /\ m_rows M' = 2 /\ m_cols M' = 1
    /\ forall i j,
         coeff M' i j
         = coeff (at_key {[ 0 := sparse_matrix 2 1 [(0, 0, 5)] ]} 0) i j
           + coeff (mat_mul sparse_col_12 (sparse_matrix 1 1 [(0, 0, 1)])) i j.
Proof.
  exact (multiply_by_constant_adds
           sparse_col_12
           {[ 0 := sparse_matrix 1 1 [(0, 0, 1)] ]}
           {[ 0 := sparse_matrix 2 1 [(0, 0, 5)] ]}
           {[ 0 := mkSparse 2 1 [(0, 0, 5); (0, 0, 1); (1, 0, 2)] ]}
           eq_refl 0).
Defined.

Lemma multiply_by_constant_checks_witness :
  map_Forall (fun _ M => m_cols sparse_col_12 = m_rows M)
    ({[ 0 := sparse_matrix 1 1 [(0, 0, 1)] ]} : CoeffMap).
Proof.
  exact (multiply_by_constant_checks
           sparse_col_12
           {[ 0 := sparse_matrix 1 1 [(0, 0, 1)] ]}
           {[ 0 := sparse_matrix 2 1 [(0, 0, 5)] ]}
           {[ 0 := mkSparse 2 1 [(0, 0, 5); (0, 0, 1); (1, 0, 2)] ]}
           eq_refl).
Defined.

Lemma get_coefficients_rows_off_mul_witness :
  exists coeffs,
    get_coefficients (H := spec_oracle) sum_with_constant = Ok coeffs
    /\ rows_are 2 coeffs.
Proof.
  eexists. split; [reflexivity|].
  apply (get_coefficients_rows_off_mul (H := spec_oracle) sum_with_constant);
    [discriminate|exact I|reflexivity].
Defined.

Lemma get_coefficients_mul_rows_witness :
  exists coeffs,
    get_coefficients (H := spec_oracle) column_times_scalar = Ok coeffs
    /\ rows_are 2 coeffs.
Proof.
  eexists. split; [reflexivity|].
  exact (get_coefficients_mul_rows (H := spec_oracle)
           (const_of dense_col_12) (var 1 1 0) NoAttributes _ _ _
           eq_refl eq_refl eq_refl).
Defined.

Lemma get_coefficients_dom_witness :
  exists coeffs,
    get_coefficients (H := spec_oracle) sum_with_constant = Ok coeffs
    /\ dom coeffs ⊆ var_ids sum_with_constant ∪ {[ -1 ]}.
Proof.
  eexists. split; [reflexivity|].
  apply (get_coefficients_dom (H := spec_oracle) sum_with_constant).
  reflexivity.
Defined.

Lemma get_coefficients_unsupported_witness :
  is_fatal (get_coefficients (H := spec_oracle)
              (neg (Expr ABS [var 1 1 0] NoAttributes))) = true.
Proof.
  apply (get_coefficients_unsupported (H := spec_oracle)). reflexivity.
Defined.

Lemma get_transpose_coefficients_involution_witness :
  exists T1 T2,
    get_transpose_coefficients (H := spec_oracle) transpose_2x3 = [T1]
    /\ get_transpose_coefficients (H := spec_oracle) transpose_twice = [T2]
    /\ mat_vec T2 (mat_vec T1 [1; 2; 3; 4; 5; 6]) = [1; 2; 3; 4; 5; 6].
Proof.
  apply (get_transpose_coefficients_involution (H := spec_oracle)
           transpose_2x3 transpose_twice 2 3 [1; 2; 3; 4; 5; 6]);
    [reflexivity|reflexivity|lia|lia|reflexivity].
Defined.

Lemma get_diag_vec_coefficients_diagonal_witness :
  exists D,
    get_diag_vec_coefficients (H := spec_oracle) diag_vec_2 = [D]
    /\ vec_at (mat_vec D [7; 8]) (1 * 2 + 1) = 8
    /\ vec_at (mat_vec D [7; 8]) (1 * 2 + 0) = 0.
Proof.
  destruct (get_diag_vec_coefficients_diagonal (H := spec_oracle)
              diag_vec_2 2 [7; 8] eq_refl) as (D & HD & _ & _ & _ & Hat).
  exists D. split; [exact HD|]. split.
  - exact (Hat 1 1 ltac:(lia) ltac:(lia)).
  - exact (Hat 0 1 ltac:(lia) ltac:(lia)).
Defined.

Lemma get_diag_mat_coefficients_reads_diagonal_witness :
  exists D,
    get_diag_mat_coefficients (H := spec_oracle) diag_mat_2 = [D]
    /\ mat_vec D [1; 2; 3; 4] = [1; 4].
Proof.
  destruct (get_diag_mat_coefficients_reads_diagonal (H := spec_oracle)
              diag_mat_2 2 [1; 2; 3; 4] eq_refl) as (D & HD & _ & _ & Hread).
  exists D. split; [exact HD|exact Hread].
Defined.

Lemma diag_mat_of_diag_vec_witness :
  exists Dv Dm,
    get_diag_vec_coefficients (H := spec_oracle) diag_vec_2 = [Dv]
    /\ get_diag_mat_coefficients (H := spec_oracle) diag_mat_2 = [Dm]
    /\ mat_vec Dm (mat_vec Dv [7; 8]) = [7; 8].
Proof.
  apply (diag_mat_of_diag_vec (H := spec_oracle) diag_vec_2 diag_mat_2 2 [7; 8]);
    reflexivity.
Defined.

Lemma get_stack_coefficients_places_witness :
  exists F,
    get_stack_coefficients (H := spec_oracle) vstack_1_2 true !! 1%nat = Some F
    /\ m_rows F = 6 /\ m_cols F = 4
    /\ vec_at (mat_vec F [1; 2; 3; 4]) (1 + 1 * 3 + 1) = vec_at [1; 2; 3; 4] (1 + 1 * 2).
Proof.
  destruct (get_stack_coefficients_places (H := spec_oracle)
              vstack_1_2 true 1 (var 2 2 1) [1; 2; 3; 4] eq_refl
              ltac:(repeat split; vm_compute; congruence))
    as (F & HF & Hrows & Hcols & Hat).
  exists F. split; [exact HF|]. split; [exact Hrows|]. split; [exact Hcols|].
  exact (Hat 1 1 ltac:(repeat split; vm_compute; congruence) ltac:(repeat split; vm_compute; congruence) ltac:(repeat split; vm_compute; congruence)).
Defined.

Lemma slice_walk_forward_selects_witness :
  exists l,
    slice_walk (Z.to_nat 5) 0 3 2 5 = Ok l
    /\ StronglySorted Z.lt l
    /\ forall p,
         p ∈ l
         <-> 0 <= 0 < 5
             /\ exists k, 0 <= k /\ p = 0 + k * 2 /\ p < 5 /\ (k = 0 \/ p < 3).
Proof.
  apply (slice_walk_forward_selects 0 3 2 5). lia.
Defined.

Lemma slice_walk_backward_selects_witness :
  exists l,
    slice_walk (Z.to_nat 3) 2 0 (-1) 3 = Ok l
    /\ StronglySorted Z.gt l
    /\ forall p,
         p ∈ l
         <-> 0 <= 2 < 3
             /\ exists k, 0 <= k /\ p = 2 + k * -1 /\ 0 <= p /\ (k = 0 \/ 0 <= p).
Proof.
  apply (slice_walk_backward_selects 2 0 (-1) 3). lia.
Defined.

Lemma get_index_coefficients_selects_witness :
  exists F,
    get_index_coefficients (H := spec_oracle) index_block = Ok [F]
    /\ m_rows F = 4 /\ m_cols F = 9
    /\ m_entries F = [(0, 3, 1); (1, 4, 1); (2, 6, 1); (3, 7, 1)]
    /\ coeff F 2 6 = 1 /\ coeff F 2 7 = 0 /\ coeff F 4 0 = 0.
Proof.
  destruct (get_index_coefficients_selects (H := spec_oracle) index_block
              [sparse_matrix 4 9 [(0, 3, 1); (1, 4, 1); (2, 6, 1); (3, 7, 1)]]
              eq_refl)
    as (arg0 & F & _ & HF & _ & _ & _ & Hcoeff).
  exists F. injection HF as <-.
  split; [reflexivity|]. split; [reflexivity|]. split; [reflexivity|].
  split; [reflexivity|].
  rewrite !Hcoeff. repeat split.
Defined.

Lemma get_index_coefficients_terminates_witness :
  get_index_coefficients (H := spec_oracle) index_block <> Fatal Unterminated.
Proof.
  apply (get_index_coefficients_terminates (H := spec_oracle) index_block
           (mkSlice 0 2 1) (mkSlice 1 3 1));
    [reflexivity|vm_compute; congruence|vm_compute; congruence].
Defined.

Lemma get_index_coefficients_zero_step_witness :
  get_index_coefficients (H := square_oracle) index_zero_step
  = Fatal Unterminated.
Proof.
  apply (get_index_coefficients_zero_step (H := square_oracle) index_zero_step
           (var 3 3 0) (mkSlice 0 2 1) (mkSlice 1 3 0));
    [reflexivity|reflexivity|vm_compute; congruence|vm_compute; congruence
    |split; vm_compute; congruence|left; reflexivity].
Defined.

Lemma transform_expression_output_affine_witness :
  no_registered_atom (add (var 2 1 7) (var 2 1 1)) = true
  /\ exists new,
       [leq (var 2 1 0) (var 2 1 7); leq (neg (var 2 1 0)) (var 2 1 7)]
       = [] ++ new
       /\ Forall (fun c => no_registered_atom c = true) new.
Proof.
  exact (transform_expression_output_affine (H := spec_oracle)
           abs_plus_var (mkState 7 []) _ (mkState 8 _) eq_refl).
Defined.

Lemma transform_expression_idempotent_witness :
  transform_expression (H := spec_oracle)
    (add (var 2 1 7) (var 2 1 1)) (mkState 8 [])
  = Ok (add (var 2 1 7) (var 2 1 1), mkState 8 []).
Proof.
  exact (transform_expression_idempotent (H := spec_oracle)
           abs_plus_var (mkState 7 []) _
           (mkState 8 [leq (var 2 1 0) (var 2 1 7);
                       leq (neg (var 2 1 0)) (var 2 1 7)])
           eq_refl (mkState 8 [])).
Defined.

Lemma transform_expression_counts_witness :
  8 = 7 + Z.of_nat (count_atoms abs_plus_var)
  /\ length [leq (var 2 1 0) (var 2 1 7); leq (neg (var 2 1 0)) (var 2 1 7)]
     = (length (@nil Expression) + 2 * count_atoms abs_plus_var)%nat.
Proof.
  exact (transform_expression_counts (H := spec_oracle)
           abs_plus_var (mkState 7 []) _
           (mkState 8 [leq (var 2 1 0) (var 2 1 7);
                       leq (neg (var 2 1 0)) (var 2 1 7)])
           eq_refl).
Defined.

Lemma transform_expression_outcome_witness :
  (exists e' st',
     transform_expression (H := spec_oracle) abs_plus_var (mkState 7 [])
     = Ok (e', st'))
  /\ transform_expression (H := spec_oracle)
       (neg (Expr P_NORM [var 2 1 0] (PNormAttributes 2))) (mkState 7 [])
     = Fatal CheckEqFailed.
Proof.
  split.
  - exact (transform_expression_outcome (H := spec_oracle)
             abs_plus_var eq_refl (mkState 7 [])).
  - exact (transform_expression_outcome (H := spec_oracle)
             (neg (Expr P_NORM [var 2 1 0] (PNormAttributes 2)))
             eq_refl (mkState 7 [])).
Defined.

Lemma transform_problem_shape_witness :
  exists problem' last_id,
    transform (H := spec_oracle) small_problem 7 = Ok (problem', last_id)
    /\ sense problem' = MINIMIZE
    /\ last_id = 7 + Z.of_nat 2
    /\ length (constraints problem') = (1 + 2 * 2)%nat
    /\ no_registered_atom (objective problem') = true
    /\ Forall (fun c => no_registered_atom c = true) (constraints problem').
Proof.
  eexists. eexists. split; [reflexivity|].
  exact (transform_problem_shape (H := spec_oracle) small_problem 7 _ _ eq_refl).
Defined.
